(** * naive_parser_combinators: a shallow embedding and its laws

    The Python module [naive_parser_combinators/__init__.py] defines a parser
    as a function from a token sequence and a start index to a [frozenset] of
    [(value, end index)] pairs.  Here

    - a Python [int] is a [Z];
    - a [frozenset] of hashable values is a [gset] over a [Countable] type,
      so that equal members collapse and two sets with the same members are
      equal;
    - [None] is [tt : unit], a 2-tuple is a pair;
    - a call that raises is a [Raise] result: the only exception the module
      itself can raise is the [IndexError] of [tokens[index]];
    - predicates and output functions handed in by the caller are total
      functions, and Python's [==] on values is equality in the value type. *)

From stdpp Require Import gmap strings list.

Local Open Scope Z_scope.

(** ** Results of calls that may raise *)

Inductive exn : Set := IndexError.

Inductive result (A : Type) : Type :=
| Ok (a : A)
| Raise (e : exn).
Arguments Ok {A} a.
Arguments Raise {A} e.

Global Instance result_ret : MRet result := λ A a, Ok a.
Global Instance result_bind : MBind result := λ A B k r,
  match r with
  | Ok a => k a
  | Raise e => Raise e
  end.

(** ** Python sequences *)

(** [len(tokens)]. *)
Definition len {A} (tokens : list A) : Z := Z.of_nat (length tokens).

(** [tokens[index]] on a list or tuple: a negative index counts from the end,
    and an index outside [-len(tokens) .. len(tokens) - 1] raises. *)
Definition getitem {A} (tokens : list A) (index : Z) : result A :=
  let i := if index <? 0 then index + len tokens else index in
  if (i <? 0) || (len tokens <=? i) then Raise IndexError
  else match tokens !! Z.to_nat i with
       | Some tok => Ok tok
       | None => Raise IndexError
       end.

(** ** Parsers *)

(** [Parser = Callable[[Sequence[TokenT], int], FrozenSet[Tuple[ValueT, int]]]] *)
Definition Parser (TokenT ValueT : Type) `{Countable ValueT} : Type :=
  list TokenT → Z → result (gset (ValueT * Z)).

Section combinators.
Context {TokenT : Type}.

(** [def fail(tokens, index): return frozenset()] *)
Definition fail {ValueT} `{Countable ValueT} : Parser TokenT ValueT :=
  λ tokens index, Ok ∅.

(** [def noop(tokens, index): return frozenset({(None, index)})] *)
Definition noop : Parser TokenT unit :=
  λ tokens index, Ok {[ (tt, index) ]}.

(** [consume(pred)]: the condition [index < len(tokens) and pred(tokens[index])]
    is evaluated left to right, and [tokens[index]] is read a second time
    for the output. *)
Definition consume `{Countable TokenT} (pred : TokenT → bool)
    : Parser TokenT TokenT :=
  λ tokens index,
    cond ← (if index <? len tokens
            then tok ← getitem tokens index; Ok (pred tok)
            else Ok false);
    if cond : bool
    then tok ← getitem tokens index; Ok {[ (tok, index + 1) ]}
    else Ok ∅.

(** [compose(parser1, parser2)]: the generator runs [parser2] once for each
    member of [parser1]'s result, and [frozenset().union( *sets )] joins
    the sets it yields. *)
Definition compose {ValueT1 ValueT2} `{Countable ValueT1, Countable ValueT2}
    (parser1 : Parser TokenT ValueT1) (parser2 : Parser TokenT ValueT2)
    : Parser TokenT (ValueT1 * ValueT2) :=
  λ tokens index,
    results1 ← parser1 tokens index;
    sets ← mapM (λ '(value1, index1),
                   results2 ← parser2 tokens index1;
                   Ok (set_map (D := gset (ValueT1 * ValueT2 * Z))
                         (λ '(value2, index2), ((value1, value2), index2))
                         results2))
                (elements results1);
    Ok (⋃ sets).

(** [either(parser1, parser2)]:
    [parser1(tokens, index) | parser2(tokens, index)] *)
Definition either {ValueT} `{Countable ValueT}
    (parser1 parser2 : Parser TokenT ValueT) : Parser TokenT ValueT :=
  λ tokens index,
    results1 ← parser1 tokens index;
    results2 ← parser2 tokens index;
    Ok (results1 ∪ results2).

(** [apply(func, parser)]:
    [frozenset({(func(value), index) for value, index in parser(tokens, index)})] *)
Definition apply {ValueT1 ValueT2} `{Countable ValueT1, Countable ValueT2}
    (func : ValueT1 → ValueT2) (parser : Parser TokenT ValueT1)
    : Parser TokenT ValueT2 :=
  λ tokens index,
    results ← parser tokens index;
    Ok (set_map (D := gset (ValueT2 * Z))
          (λ '(value, index), (func value, index)) results).

(** [emit(value) = apply(lambda _: value, noop)] *)
Definition emit {ValueT} `{Countable ValueT} (value : ValueT)
    : Parser TokenT ValueT :=
  apply (λ _, value) noop.

(** [transform(pred, func) = apply(lambda token: func(token), consume(pred))] *)
Definition transform {ValueT} `{Countable TokenT, Countable ValueT}
    (pred : TokenT → bool) (func : TokenT → ValueT) : Parser TokenT ValueT :=
  apply (λ token, func token) (consume pred).

(** [combine(parser1, parser2, func)
      = apply(lambda _: func(_[0], _[1]), compose(parser1, parser2))] *)
Definition combine {ValueT1 ValueT2 ValueT3}
    `{Countable ValueT1, Countable ValueT2, Countable ValueT3}
    (parser1 : Parser TokenT ValueT1) (parser2 : Parser TokenT ValueT2)
    (func : ValueT1 → ValueT2 → ValueT3) : Parser TokenT ValueT3 :=
  apply (λ x, func (fst x) (snd x)) (compose parser1 parser2).

End combinators.

(** ** The scenario of the specification: single-character tokens *)

(** Modelled from the spec: the caller's [isDigit], a predicate on a token
    that is a one-character string; it holds on the decimal digits. *)
Definition isDigit (tok : string) : bool :=
  match tok with
  | String c EmptyString =>
      let n := Z.of_N (Ascii.N_of_ascii c) in (48 <=? n) && (n <=? 57)
  | _ => false
  end.

(** Modelled from the spec: the caller's [toIntValue], the number a digit
    token denotes. *)
Definition toIntValue (tok : string) : Z :=
  match tok with
  | String c EmptyString => Z.of_N (Ascii.N_of_ascii c) - 48
  | _ => 0
  end.

(** Modelled from the spec: the caller's [isPlusSign]. *)
Definition isPlusSign (tok : string) : bool := bool_decide (tok = "+"%string).

Definition digit : Parser string Z := transform isDigit toIntValue.
Definition plus : Parser string string := consume isPlusSign.
Definition sum : Parser string Z :=
  combine digit (combine plus digit (λ _ d, d)) (λ a b, a + b).

(** ** Parsers built from the module's constructors *)

(** The parsers one obtains from [fail], [noop], [consume], [compose],
    [either], [apply], [emit], [transform] and [combine] alone. *)
Inductive Built {TokenT : Type} `{Countable TokenT}
  : ∀ (ValueT : Type) `{Countable ValueT}, Parser TokenT ValueT → Prop :=
| Built_fail ValueT `{Countable ValueT} :
    Built ValueT fail
| Built_noop :
    Built unit noop
| Built_consume pred :
    Built TokenT (consume pred)
| Built_compose ValueT1 ValueT2 `{Countable ValueT1, Countable ValueT2}
    (parser1 : Parser TokenT ValueT1) (parser2 : Parser TokenT ValueT2) :
    Built ValueT1 parser1 → Built ValueT2 parser2 →
    Built (ValueT1 * ValueT2) (compose parser1 parser2)
| Built_either ValueT `{Countable ValueT}
    (parser1 parser2 : Parser TokenT ValueT) :
    Built ValueT parser1 → Built ValueT parser2 →
    Built ValueT (either parser1 parser2)
| Built_apply ValueT1 ValueT2 `{Countable ValueT1, Countable ValueT2}
    (func : ValueT1 → ValueT2) (parser : Parser TokenT ValueT1) :
    Built ValueT1 parser →
    Built ValueT2 (apply func parser)
| Built_emit ValueT `{Countable ValueT} (value : ValueT) :
    Built ValueT (emit value)
| Built_transform ValueT `{Countable ValueT}
    (pred : TokenT → bool) (func : TokenT → ValueT) :
    Built ValueT (transform pred func)
| Built_combine ValueT1 ValueT2 ValueT3
    `{Countable ValueT1, Countable ValueT2, Countable ValueT3}
    (parser1 : Parser TokenT ValueT1) (parser2 : Parser TokenT ValueT2)
    (func : ValueT1 → ValueT2 → ValueT3) :
    Built ValueT1 parser1 → Built ValueT2 parser2 →
    Built ValueT3 (combine parser1 parser2 func).

(** Every end index of a normal return lies between the start index and the
    end of the input. *)
Definition in_bounds {TokenT ValueT} `{Countable ValueT}
    (tokens : list TokenT) (index : Z) (results : gset (ValueT * Z)) : Prop :=
  ∀ value index', (value, index') ∈ results → index ≤ index' ≤ len tokens.

(** A parser that, started anywhere within the input, returns without
    raising and reports end indices within bounds only. *)
Definition returns_in_bounds {TokenT ValueT} `{Countable ValueT}
    (parser : Parser TokenT ValueT) : Prop :=
  ∀ tokens index, 0 ≤ index ≤ len tokens →
    ∃ results, parser tokens index = Ok results ∧ in_bounds tokens index results.

(** [combine] in the words of the specification: [compose(parser1, parser2)]
    followed by applying the two-argument function to the resulting pair. *)
Definition combine_spec {TokenT ValueT1 ValueT2 ValueT3}
    `{Countable ValueT1, Countable ValueT2, Countable ValueT3}
    (parser1 : Parser TokenT ValueT1) (parser2 : Parser TokenT ValueT2)
    (combineFunction : ValueT1 → ValueT2 → ValueT3) : Parser TokenT ValueT3 :=
  apply (λ '(value1, value2), combineFunction value1 value2)
        (compose parser1 parser2).

(** ** Auxiliary notions for the laws of the algebra *)

(** The end indices of a result set moved by [offset]. *)
Definition shift {ValueT} `{Countable ValueT} (offset : Z)
    (results : gset (ValueT * Z)) : gset (ValueT * Z) :=
  set_map (D := gset (ValueT * Z))
    (λ '(value, index), (value, index + offset)) results.

(** Left-nested pairs, as [compose] of a [compose] outputs them, re-nested
    to the right. *)
Definition reassoc {A B C} (x : A * B * C) : A * (B * C) :=
  (fst (fst x), (snd (fst x), snd x)).

(** A parser that, started at any index from 0 on, returns without raising,
    never reports an end index before its start, and never one past the end
    of the input unless it was started there. *)
Definition returns_forward {TokenT ValueT} `{Countable ValueT}
    (parser : Parser TokenT ValueT) : Prop :=
  ∀ tokens index, 0 ≤ index →
    ∃ results, parser tokens index = Ok results ∧
      ∀ value index', (value, index') ∈ results →
        index ≤ index' ≤ Z.max index (len tokens).

(** A parser that does not see the tokens before its start index: with
    [prefix] put in front of the input and the start moved accordingly, it
    returns the same results, moved by the length of [prefix]. *)
Definition prefix_independent {TokenT ValueT} `{Countable ValueT}
    (parser : Parser TokenT ValueT) : Prop :=
  ∀ prefix tokens index, 0 ≤ index →
    ∃ results, parser tokens index = Ok results ∧
      parser (prefix ++ tokens) (index + len prefix)
        = Ok (shift (len prefix) results).

(** A parser whose results within [tokens] do not depend on what follows
    [tokens]: with [suffix] appended it returns the same results, and
    possibly others that end inside [suffix]. *)
Definition suffix_independent {TokenT ValueT} `{Countable ValueT}
    (parser : Parser TokenT ValueT) : Prop :=
  ∀ tokens suffix index, 0 ≤ index ≤ len tokens →
    ∃ results results',
      parser tokens index = Ok results ∧
      parser (tokens ++ suffix) index = Ok results' ∧
      ∀ value index',
        (value, index') ∈ results ↔
        (value, index') ∈ results' ∧ index' ≤ len tokens.

(** * Proofs *)

(** ** Calls that may raise *)

Lemma bind_Ok {A B} (m : result A) (k : A → result B) b :
  m ≫= k = Ok b ↔ ∃ a, m = Ok a ∧ k a = Ok b.
Proof.
  destruct m as [a|e]; simpl; split.
  - intros Hk. by exists a.
  - by intros (a' & [= <-] & Hk).
  - discriminate.
  - by intros (a' & [=] & _).
Qed.

Lemma bind_Ok_l {A B} (m : result A) (k : A → result B) a :
  m = Ok a → m ≫= k = k a.
Proof. by intros ->. Qed.

Section mapM_lemmas.
Context {A B : Type}.

Lemma mapM_cons (f : A → result B) x l :
  mapM f (x :: l) = y ← f x; ys ← mapM f l; Ok (y :: ys).
Proof. reflexivity. Qed.

Lemma mapM_Ok (f : A → result B) l ys :
  mapM f l = Ok ys ↔ Forall2 (λ x y, f x = Ok y) l ys.
Proof.
  revert ys. induction l as [|x l IH]; intros ys.
  - split.
    + intros [= <-]. constructor.
    + by inversion 1.
  - rewrite mapM_cons, bind_Ok. split.
    + intros (y & Hy & Hrest). apply bind_Ok in Hrest as (ys' & Hys' & [= <-]).
      constructor; [done | by apply IH].
    + inversion 1 as [|? y ? ys' Hy Hys']; subst.
      exists y. split; [done |]. apply IH in Hys'.
      by rewrite (bind_Ok_l _ _ _ Hys').
Qed.

Lemma mapM_returns (f : A → result B) l :
  (∀ x, x ∈ l → ∃ y, f x = Ok y) → ∃ ys, mapM f l = Ok ys.
Proof.
  induction l as [|x l IH]; intros Hf.
  - by exists [].
  - destruct (Hf x) as [y Hy]; [by left |].
    destruct IH as [ys Hys]; [intros x' Hx'; apply Hf; by right |].
    exists (y :: ys). by rewrite mapM_cons, (bind_Ok_l _ _ _ Hy), (bind_Ok_l _ _ _ Hys).
Qed.

Lemma mapM_Ok_elem_of (f : A → result B) l ys :
  mapM f l = Ok ys → ∀ y, y ∈ ys ↔ ∃ x, x ∈ l ∧ f x = Ok y.
Proof.
  rewrite mapM_Ok. induction 1 as [|x y l ys Hxy _ IH]; intros y'.
  - split; [by intros ?%elem_of_nil | by intros (? & ?%elem_of_nil & _)].
  - rewrite elem_of_cons, IH. split.
    + intros [-> | (x' & Hx' & Hy')].
      * exists x. split; [by left | done].
      * exists x'. split; [by right | done].
    + intros (x' & [-> | Hx']%elem_of_cons & Hy').
      * left. congruence.
      * right. by exists x'.
Qed.
End mapM_lemmas.

(** ** Indexing *)

Lemma len_nonneg {A} (tokens : list A) : 0 ≤ len tokens.
Proof. unfold len. lia. Qed.

Lemma lookup_None_len {A} (tokens : list A) index :
  0 ≤ index → tokens !! Z.to_nat index = None ↔ len tokens ≤ index.
Proof. intros Hpos. rewrite lookup_ge_None. unfold len. lia. Qed.

(** At an index from [0] the subscript reads the element at that offset and
    raises from [len(tokens)] on. *)
Lemma getitem_nonneg {A} (tokens : list A) index :
  0 ≤ index →
  getitem tokens index =
    match tokens !! Z.to_nat index with
    | Some tok => Ok tok
    | None => Raise IndexError
    end.
Proof.
  intros Hpos. unfold getitem.
  destruct (Z.ltb_spec index 0) as [?|_]; [lia |].
  destruct (Z.ltb_spec index 0) as [?|_]; [lia |]. simpl.
  destruct (Z.leb_spec (len tokens) index) as [Hge|Hlt]; [|done].
  by apply lookup_None_len in Hge as ->.
Qed.

(** A negative index down to [-len(tokens)] counts from the end. *)
Lemma getitem_negative {A} (tokens : list A) index :
  - len tokens ≤ index < 0 →
  getitem tokens index = getitem tokens (index + len tokens).
Proof.
  intros [Hlo Hhi]. unfold getitem.
  assert ((index + len tokens <? 0) = false) as Hwrap by (apply Z.ltb_ge; lia).
  rewrite (proj2 (Z.ltb_lt index 0) Hhi). cbv zeta. by rewrite !Hwrap.
Qed.

(** Below [-len(tokens)] the subscript raises. *)
Lemma getitem_below {A} (tokens : list A) index :
  index < - len tokens → getitem tokens index = Raise IndexError.
Proof.
  intros Hlo. pose proof (len_nonneg tokens). unfold getitem.
  destruct (Z.ltb_spec index 0) as [_|?]; [|lia].
  by destruct (Z.ltb_spec (index + len tokens) 0) as [_|?]; [|lia].
Qed.

(** ** The combinators, one by one *)

Section combinator_lemmas.
Context {TokenT : Type}.

(** [consume] from index [0] on never raises. *)
Lemma consume_nonneg `{Countable TokenT} (pred : TokenT → bool) tokens index :
  0 ≤ index →
  consume pred tokens index =
    Ok (match tokens !! Z.to_nat index with
        | Some tok => if pred tok then {[ (tok, index + 1) ]} else ∅
        | None => ∅
        end).
Proof.
  intros Hpos. unfold consume. rewrite getitem_nonneg by done.
  destruct (Z.ltb_spec index (len tokens)) as [Hlt|Hge].
  - destruct (tokens !! Z.to_nat index) as [tok|] eqn:Htok.
    + simpl. by destruct (pred tok).
    + apply lookup_None_len in Htok; [lia | done].
  - by apply lookup_None_len in Hge as ->.
Qed.

(** [consume] at a negative index: Python's subscript wraps around, so the
    last tokens are read, and below [-len(tokens)] the call raises. *)
Lemma consume_negative `{Countable TokenT} (pred : TokenT → bool) tokens index :
  index < 0 →
  consume pred tokens index =
    tok ← getitem tokens index;
    Ok (if pred tok then {[ (tok, index + 1) ]} else ∅).
Proof.
  intros Hneg. pose proof (len_nonneg tokens). unfold consume.
  destruct (Z.ltb_spec index (len tokens)) as [_|?]; [|lia].
  destruct (getitem tokens index) as [tok|e]; [|done]. simpl.
  by destruct (pred tok).
Qed.

Example consume_wraps_around :
  consume isDigit ["1"; "+"; "2"]%string (-1) = Ok {[ ("2"%string, 0) ]}.
Proof. vm_compute. reflexivity. Qed.

Example consume_raises_below :
  consume isDigit ["1"; "+"; "2"]%string (-4) = Raise IndexError.
Proof. reflexivity. Qed.
End combinator_lemmas.

Section compose_apply_lemmas.
Context {TokenT ValueT1 ValueT2 : Type}.
Context `{Countable ValueT1, Countable ValueT2}.

(** When [parser1] returns and [parser2] returns at each of its end
    indices, [compose] returns, and its members are the pairings. *)
Lemma compose_returns (parser1 : Parser TokenT ValueT1)
    (parser2 : Parser TokenT ValueT2) tokens index results1 :
  parser1 tokens index = Ok results1 →
  (∀ value1 index1, (value1, index1) ∈ results1 →
     ∃ results2, parser2 tokens index1 = Ok results2) →
  ∃ results, compose parser1 parser2 tokens index = Ok results ∧
    ∀ value1 value2 index2,
      ((value1, value2), index2) ∈ results ↔
      ∃ index1 results2,
        (value1, index1) ∈ results1 ∧
        parser2 tokens index1 = Ok results2 ∧
        (value2, index2) ∈ results2.
Proof.
  intros H1 H2. unfold compose. rewrite (bind_Ok_l _ _ _ H1).
  match goal with |- context [mapM ?g _] => set (step := g) end.
  destruct (mapM_returns step (elements results1)) as [sets Hsets].
  { intros [value1 index1] Hin%elem_of_elements.
    destruct (H2 _ _ Hin) as [results2 H2'].
    eexists. unfold step. by rewrite (bind_Ok_l _ _ _ H2'). }
  exists (⋃ sets). split; [by rewrite (bind_Ok_l _ _ _ Hsets) |].
  intros value1 value2 index2. rewrite elem_of_union_list. split.
  - intros (X & HX & Hin).
    apply (mapM_Ok_elem_of _ _ _ Hsets) in HX
      as ([value1' index1] & Hin1%elem_of_elements & Hstep).
    unfold step in Hstep.
    apply bind_Ok in Hstep as (results2 & H2' & [= <-]).
    apply elem_of_map in Hin as ([value2' index2'] & [= -> -> ->] & Hin2).
    by exists index1, results2.
  - intros (index1 & results2 & Hin1 & H2' & Hin2).
    eexists. split.
    + apply (mapM_Ok_elem_of _ _ _ Hsets). exists (value1, index1).
      split; [by apply elem_of_elements |].
      unfold step. by rewrite (bind_Ok_l _ _ _ H2').
    + apply elem_of_map. by exists (value2, index2).
Qed.

(** A raise in [parser1] passes through [compose]. *)
Lemma compose_raise_l (parser1 : Parser TokenT ValueT1)
    (parser2 : Parser TokenT ValueT2) tokens index e :
  parser1 tokens index = Raise e →
  compose parser1 parser2 tokens index = Raise e.
Proof. unfold compose. by intros ->. Qed.

(** Members of [apply]'s result. *)
Lemma elem_of_apply (func : ValueT1 → ValueT2) (results : gset (ValueT1 * Z))
    value' index' :
  (value', index') ∈
    set_map (D := gset (ValueT2 * Z))
      (λ '(value, index), (func value, index)) results ↔
  ∃ value, value' = func value ∧ (value, index') ∈ results.
Proof.
  rewrite elem_of_map. split.
  - intros ([value index] & [= -> ->] & Hin). by exists value.
  - intros (value & -> & Hin). by exists (value, index').
Qed.
End compose_apply_lemmas.

(** ** Sequential composition *)

(** C1: when [parser1] returns [results1] and [parser2] returns at each end
    index in [results1], [compose parser1 parser2] returns the set whose
    members are exactly the [((value1, value2), index2)] with
    [(value1, index1)] a result of [parser1] and [(value2, index2)] a result
    of [parser2] run at [index1]; it is empty when [results1] is empty and
    when every run of [parser2] returns the empty set. *)
Theorem compose_cartesian {TokenT ValueT1 ValueT2}
    `{Countable ValueT1, Countable ValueT2}
    (parser1 : Parser TokenT ValueT1) (parser2 : Parser TokenT ValueT2)
    tokens index results1
    (Hparser1 : parser1 tokens index = Ok results1)
    (Hparser2 : ∀ value1 index1, (value1, index1) ∈ results1 →
                  ∃ results2, parser2 tokens index1 = Ok results2) :
  ∃ results, compose parser1 parser2 tokens index = Ok results ∧
    (∀ value1 value2 index2,
       ((value1, value2), index2) ∈ results ↔
       ∃ index1 results2,
         (value1, index1) ∈ results1 ∧
         parser2 tokens index1 = Ok results2 ∧
         (value2, index2) ∈ results2) ∧
    (results1 = ∅ → results = ∅) ∧
    ((∀ value1 index1, (value1, index1) ∈ results1 →
        parser2 tokens index1 = Ok ∅) → results = ∅).
Proof.
  destruct (compose_returns parser1 parser2 tokens index results1)
    as (results & Hres & Hmem); [done.. |].
  exists results. repeat split; try done.
  - by apply Hmem.
  - by apply Hmem.
  - intros ->. apply elem_of_equiv_empty_L. intros [[value1 value2] index2].
    rewrite Hmem. intros (index1 & results2 & Hin & _). set_solver.
  - intros Hempty. apply elem_of_equiv_empty_L.
    intros [[value1 value2] index2].
    rewrite Hmem. intros (index1 & results2 & Hin1 & H2' & Hin2).
    rewrite (Hempty _ _ Hin1) in H2'. injection H2' as <-. set_solver.
Qed.

Lemma compose_cartesian_witness :
  ∃ results,
    compose (consume isDigit) (consume isPlusSign) ["1"; "+"]%string 0
      = Ok results ∧
    (∀ value1 value2 index2,
       ((value1, value2), index2) ∈ results ↔
       ∃ index1 results2,
         (value1, index1) ∈ ({[ ("1"%string, 1) ]} : gset (string * Z)) ∧
         consume isPlusSign ["1"; "+"]%string index1 = Ok results2 ∧
         (value2, index2) ∈ results2) ∧
    (({[ ("1"%string, 1) ]} : gset (string * Z)) = ∅ → results = ∅) ∧
    ((∀ value1 index1,
        (value1, index1) ∈ ({[ ("1"%string, 1) ]} : gset (string * Z)) →
        consume isPlusSign ["1"; "+"]%string index1 = Ok ∅) → results = ∅).
Proof.
  apply (compose_cartesian (consume isDigit) (consume isPlusSign)
           ["1"; "+"]%string 0 {[ ("1"%string, 1) ]}).
  - vm_compute. reflexivity.
  - intros value1 index1 Hin. apply elem_of_singleton in Hin.
    injection Hin as -> ->. eexists. vm_compute. reflexivity.
Defined.

(** ** Consuming one token *)

(** C3: at a start index from [0] on, [consume pred] returns the empty set
    when the index is at or past the end of the input or [pred] rejects the
    token there, and otherwise returns exactly the one result made of that
    token and the next index. *)
Theorem consume_spec {TokenT} `{Countable TokenT}
    (pred : TokenT → bool) tokens index (Hindex : 0 ≤ index) :
  (len tokens ≤ index → consume pred tokens index = Ok ∅) ∧
  (index < len tokens →
     ∃ tok, tokens !! Z.to_nat index = Some tok ∧
       consume pred tokens index =
         Ok (if pred tok then {[ (tok, index + 1) ]} else ∅)).
Proof.
  rewrite consume_nonneg by done. split.
  - intros Hge. by apply lookup_None_len in Hge as ->.
  - intros Hlt. destruct (tokens !! Z.to_nat index) as [tok|] eqn:Htok.
    + by exists tok.
    + apply lookup_None_len in Htok; [lia | done].
Qed.

Lemma consume_spec_witness :
  ∃ tok, ["1"; "+"; "2"]%string !! Z.to_nat 1 = Some tok ∧
    consume isPlusSign ["1"; "+"; "2"]%string 1 =
      Ok (if isPlusSign tok then {[ (tok, 1 + 1) ]} else ∅).
Proof.
  apply (consume_spec isPlusSign ["1"; "+"; "2"]%string 1).
  - lia.
  - unfold len. simpl. lia.
Defined.

(** ** Alternation *)

(** C4: when both parsers return, [either parser1 parser2] returns the union
    of their result sets, a pair found in both being one member of it; and
    [either parser1 parser2] and [either parser2 parser1] give the same
    outcome on every input. *)
Theorem either_union {TokenT ValueT} `{Countable ValueT}
    (parser1 parser2 : Parser TokenT ValueT) tokens index :
  (∀ results1 results2,
     parser1 tokens index = Ok results1 →
     parser2 tokens index = Ok results2 →
     either parser1 parser2 tokens index = Ok (results1 ∪ results2) ∧
     ∀ value index',
       (value, index') ∈ results1 ∪ results2 ↔
       (value, index') ∈ results1 ∨ (value, index') ∈ results2) ∧
  either parser1 parser2 tokens index = either parser2 parser1 tokens index.
Proof.
  unfold either. split.
  - intros results1 results2 -> ->. split; [done |].
    intros value index'. apply elem_of_union.
  - destruct (parser1 tokens index) as [results1|[]],
             (parser2 tokens index) as [results2|[]]; simpl; try done.
    f_equal. apply (comm_L (∪)).
Qed.

Lemma either_union_witness :
  either (consume isDigit) (transform isDigit id) ["1"]%string 0
    = Ok ({[ ("1"%string, 1) ]} ∪ {[ ("1"%string, 1) ]}) ∧
  either (consume isDigit) (transform isDigit id) ["1"]%string 0
    = either (transform isDigit id) (consume isDigit) ["1"]%string 0.
Proof.
  destruct (either_union (consume isDigit) (transform isDigit id)
              ["1"]%string 0) as [Hunion Hcomm].
  split; [|exact Hcomm].
  apply (Hunion {[ ("1"%string, 1) ]} {[ ("1"%string, 1) ]}).
  - vm_compute. reflexivity.
  - vm_compute. reflexivity.
Defined.

(** ** Mapping over the values *)

(** C5: when [parser] returns [results], [apply func parser] returns a set
    that is empty exactly when [results] is, and whose members are the
    [(func value, index')] for [(value, index')] in [results]: the end
    indices are those of [parser]. *)
Theorem apply_spec {TokenT ValueT1 ValueT2}
    `{Countable ValueT1, Countable ValueT2}
    (func : ValueT1 → ValueT2) (parser : Parser TokenT ValueT1)
    tokens index results
    (Hparser : parser tokens index = Ok results) :
  ∃ results', apply func parser tokens index = Ok results' ∧
    (results' = ∅ ↔ results = ∅) ∧
    (∀ value' index',
       (value', index') ∈ results' ↔
       ∃ value, value' = func value ∧ (value, index') ∈ results) ∧
    (∀ index', (∃ value', (value', index') ∈ results') ↔
               (∃ value, (value, index') ∈ results)).
Proof.
  unfold apply. rewrite Hparser. eexists. split; [reflexivity |].
  repeat split.
  - intros Hempty. apply elem_of_equiv_empty_L. intros [value index'] Hin.
    rewrite elem_of_equiv_empty_L in Hempty.
    apply (Hempty (func value, index')), elem_of_apply. by exists value.
  - intros ->. apply set_map_empty.
  - by intros ?%elem_of_apply.
  - by intros ?%elem_of_apply.
  - intros (value' & (value & _ & Hin)%elem_of_apply). by exists value.
  - intros (value & Hin). exists (func value). apply elem_of_apply.
    by exists value.
Qed.

Lemma apply_spec_witness :
  ∃ results', apply toIntValue (consume isDigit) ["2"]%string 0 = Ok results' ∧
    (results' = ∅ ↔ ({[ ("2"%string, 1) ]} : gset (string * Z)) = ∅) ∧
    (∀ value' index',
       (value', index') ∈ results' ↔
       ∃ value, value' = toIntValue value ∧
         (value, index') ∈ ({[ ("2"%string, 1) ]} : gset (string * Z))) ∧
    (∀ index', (∃ value', (value', index') ∈ results') ↔
       (∃ value, (value, index') ∈ ({[ ("2"%string, 1) ]} : gset (string * Z)))).
Proof.
  apply (apply_spec toIntValue (consume isDigit) ["2"]%string 0).
  vm_compute. reflexivity.
Defined.

(** C6: [apply] obeys the functor laws: [apply id parser] has the outcome
    of [parser], and [apply g (apply f parser)] has the outcome of
    [apply (g ∘ f) parser]. *)
Theorem apply_functor {TokenT ValueT1 ValueT2 ValueT3}
    `{Countable ValueT1, Countable ValueT2, Countable ValueT3}
    (f : ValueT1 → ValueT2) (g : ValueT2 → ValueT3)
    (parser : Parser TokenT ValueT1) tokens index :
  apply id parser tokens index = parser tokens index ∧
  apply g (apply f parser) tokens index = apply (g ∘ f) parser tokens index.
Proof.
  unfold apply.
  destruct (parser tokens index) as [results|e]; simpl; [|done].
  split; f_equal; apply set_eq; intros [value' index'].
  - rewrite elem_of_apply. split.
    + by intros (value & -> & Hin).
    + intros Hin. by exists value'.
  - rewrite !elem_of_apply. split.
    + intros (value2 & -> & (value & -> & Hin)%elem_of_apply). by exists value.
    + intros (value & -> & Hin). exists (f value). split; [done |].
      apply elem_of_apply. by exists value.
Qed.

(** C7: [fail] returns the empty set on every input, and is neutral for
    [either] on both sides. *)
Theorem either_fail {TokenT ValueT} `{Countable ValueT}
    (parser : Parser TokenT ValueT) tokens index :
  fail (ValueT := ValueT) tokens index = Ok ∅ ∧
  either fail parser tokens index = parser tokens index ∧
  either parser fail tokens index = parser tokens index.
Proof.
  unfold either, fail.
  destruct (parser tokens index) as [results|e]; simpl; [|done].
  repeat split; f_equal.
  - apply (left_id_L ∅ (∪)).
  - apply (right_id_L ∅ (∪)).
Qed.

(** C10: [either] is idempotent: [either parser parser] has the outcome of
    [parser]. *)
Theorem either_idemp {TokenT ValueT} `{Countable ValueT}
    (parser : Parser TokenT ValueT) tokens index :
  either parser parser tokens index = parser tokens index.
Proof.
  unfold either.
  destruct (parser tokens index) as [results|e]; simpl; [|done].
  f_equal. apply (idemp_L (∪)).
Qed.

(** ** The derived combinators *)

(** C9: [combine parser1 parser2 func] has the outcome of [compose parser1
    parser2] followed by [apply] of the uncurried [func]. *)
Theorem combine_refines_spec {TokenT ValueT1 ValueT2 ValueT3}
    `{Countable ValueT1, Countable ValueT2, Countable ValueT3}
    (parser1 : Parser TokenT ValueT1) (parser2 : Parser TokenT ValueT2)
    (func : ValueT1 → ValueT2 → ValueT3) tokens index :
  combine parser1 parser2 func tokens index
    = combine_spec parser1 parser2 func tokens index.
Proof.
  unfold combine, combine_spec, apply.
  destruct (compose parser1 parser2 tokens index) as [results|e]; simpl;
    [|done].
  f_equal. apply set_eq. intros [value3 index'].
  rewrite !elem_of_apply.
  split; intros ([value1 value2] & -> & Hin); by exists (value1, value2).
Qed.

(** C8: on the tokens ['1', '+', '2'] the parser [sum] started at 0 returns
    the single result (3, 3). *)
Theorem sum_one_plus_two :
  sum ["1"; "+"; "2"]%string 0 = Ok {[ (3, 3) ]} ∧
  size ({[ (3, 3) ]} : gset (Z * Z)) = 1%nat.
Proof. split; [vm_compute; reflexivity | apply size_singleton]. Qed.

(** ** End indices stay within the input *)

Section in_bounds_lemmas.
Context {TokenT : Type}.

Lemma fail_in_bounds {ValueT} `{Countable ValueT} :
  returns_in_bounds (fail (TokenT := TokenT) (ValueT := ValueT)).
Proof.
  intros tokens index _. exists ∅. split; [done |].
  by intros ?? ?%elem_of_empty.
Qed.

Lemma noop_in_bounds : returns_in_bounds (noop (TokenT := TokenT)).
Proof.
  intros tokens index Hindex. eexists. split; [reflexivity |].
  intros value index' [= _ ->]%elem_of_singleton. lia.
Qed.

Lemma consume_in_bounds `{Countable TokenT} (pred : TokenT → bool) :
  returns_in_bounds (consume pred).
Proof.
  intros tokens index [Hlo Hhi]. eexists. split; [by apply consume_nonneg |].
  intros value index'.
  destruct (tokens !! Z.to_nat index) as [tok|] eqn:Htok;
    [|by intros ?%elem_of_empty].
  destruct (pred tok); [|by intros ?%elem_of_empty].
  intros [= _ ->]%elem_of_singleton.
  apply lookup_lt_Some in Htok. unfold len. lia.
Qed.

Lemma either_in_bounds {ValueT} `{Countable ValueT}
    (parser1 parser2 : Parser TokenT ValueT) :
  returns_in_bounds parser1 → returns_in_bounds parser2 →
  returns_in_bounds (either parser1 parser2).
Proof.
  intros H1 H2 tokens index Hindex.
  destruct (H1 tokens index Hindex) as (results1 & Hres1 & Hb1).
  destruct (H2 tokens index Hindex) as (results2 & Hres2 & Hb2).
  exists (results1 ∪ results2). split.
  - unfold either. by rewrite Hres1, Hres2.
  - intros value index' [Hin|Hin]%elem_of_union; eauto.
Qed.
End in_bounds_lemmas.

Section in_bounds_mapping.
Context {TokenT ValueT1 ValueT2 : Type}.
Context `{Countable ValueT1, Countable ValueT2}.

Lemma apply_in_bounds (func : ValueT1 → ValueT2)
    (parser : Parser TokenT ValueT1) :
  returns_in_bounds parser → returns_in_bounds (apply func parser).
Proof.
  intros Hp tokens index Hindex.
  destruct (Hp tokens index Hindex) as (results & Hres & Hb).
  eexists. split; [unfold apply; by rewrite Hres |].
  intros value' index' (value & _ & Hin)%elem_of_apply. eauto.
Qed.

Lemma compose_in_bounds (parser1 : Parser TokenT ValueT1)
    (parser2 : Parser TokenT ValueT2) :
  returns_in_bounds parser1 → returns_in_bounds parser2 →
  returns_in_bounds (compose parser1 parser2).
Proof.
  intros H1 H2 tokens index Hindex.
  destruct (H1 tokens index Hindex) as (results1 & Hres1 & Hb1).
  destruct (compose_returns parser1 parser2 tokens index results1)
    as (results & Hres & Hmem); [done | |].
  { intros value1 index1 Hin.
    destruct (H2 tokens index1) as (results2 & Hres2 & _); [|by eexists].
    apply Hb1 in Hin. lia. }
  exists results. split; [done |].
  intros [value1 value2] index2
    (index1 & results2 & Hin1 & Hres2 & Hin2)%Hmem.
  apply Hb1 in Hin1.
  destruct (H2 tokens index1) as (results2' & Hres2' & Hb2); [lia |].
  rewrite Hres2 in Hres2'. injection Hres2' as <-.
  apply Hb2 in Hin2. lia.
Qed.
End in_bounds_mapping.

(** C2: a parser built from [fail], [noop], [consume], [compose], [either],
    [apply], [emit], [transform] and [combine], started at an index between
    0 and the length of the input, returns without raising, and every end
    index it reports lies between the start index and the length of the
    input. *)
Theorem built_in_bounds {TokenT} `{Countable TokenT}
    {ValueT} `{Countable ValueT} (parser : Parser TokenT ValueT)
    tokens index
    (Hbuilt : Built ValueT parser)
    (Hindex : 0 ≤ index ≤ len tokens) :
  ∃ results, parser tokens index = Ok results ∧
    ∀ value index', (value, index') ∈ results → index ≤ index' ≤ len tokens.
Proof.
  revert tokens index Hindex. change (returns_in_bounds parser).
  induction Hbuilt.
  - apply fail_in_bounds.
  - apply noop_in_bounds.
  - apply consume_in_bounds.
  - by apply compose_in_bounds.
  - by apply either_in_bounds.
  - by apply apply_in_bounds.
  - apply apply_in_bounds, noop_in_bounds.
  - apply apply_in_bounds, consume_in_bounds.
  - by apply apply_in_bounds, compose_in_bounds.
Qed.

Lemma built_in_bounds_witness :
  ∃ results, sum ["1"; "+"; "2"]%string 0 = Ok results ∧
    ∀ value index', (value, index') ∈ results →
      0 ≤ index' ≤ len ["1"; "+"; "2"]%string.
Proof.
  apply (built_in_bounds sum ["1"; "+"; "2"]%string 0).
  - unfold sum, digit, plus. repeat constructor.
  - unfold len. simpl. lia.
Defined.

(** * Further laws of the algebra *)

(** ** Outcomes: a normal return or a raise *)

Lemma result_cases {A} (r : result A) :
  (∃ a, r = Ok a) ∨ r = Raise IndexError.
Proof. destruct r as [a|[]]; [left; by exists a | by right]. Qed.

Lemma bind_Raise {A B} (m : result A) (k : A → result B) :
  m ≫= k = Raise IndexError ↔
  m = Raise IndexError ∨ ∃ a, m = Ok a ∧ k a = Raise IndexError.
Proof.
  destruct m as [a|[]]; simpl; split.
  - intros Hk. right. by exists a.
  - by intros [[=] | (a' & [= <-] & Hk)].
  - by left.
  - done.
Qed.

(** Two outcomes are the same when one raises exactly if the other does and
    their returned sets have the same members. *)
Lemma result_set_ext {A} `{Countable A} (r1 r2 : result (gset A)) :
  (r1 = Raise IndexError ↔ r2 = Raise IndexError) →
  (∀ s1 s2, r1 = Ok s1 → r2 = Ok s2 → ∀ x, x ∈ s1 ↔ x ∈ s2) →
  r1 = r2.
Proof.
  intros Hraise Hmem. destruct r1 as [s1|[]], r2 as [s2|[]].
  - f_equal. apply set_eq. by apply Hmem.
  - by pose proof (proj2 Hraise eq_refl).
  - by pose proof (proj1 Hraise eq_refl).
  - done.
Qed.

Lemma mapM_Raise {A B} (f : A → result B) l :
  mapM f l = Raise IndexError ↔ ∃ x, x ∈ l ∧ f x = Raise IndexError.
Proof.
  induction l as [|x l IH].
  - split; [done | by intros (? & ?%elem_of_nil & _)].
  - rewrite mapM_cons, bind_Raise. split.
    + intros [Hx | (y & Hy & Hrest)].
      * exists x. split; [by left | done].
      * apply bind_Raise in Hrest as [Hl | (ys & _ & [=])].
        apply IH in Hl as (x' & Hx' & Hf). exists x'. split; [by right | done].
    + intros (x' & [-> | Hx']%elem_of_cons & Hf); [by left |].
      destruct (result_cases (f x)) as [[y Hy] | Hx]; [|by left].
      right. exists y. split; [done |]. apply bind_Raise. left.
      apply IH. by exists x'.
Qed.

Section outcome_lemmas.
Context {TokenT ValueT1 ValueT2 : Type}.
Context `{Countable ValueT1, Countable ValueT2}.

Lemma compose_Raise (parser1 : Parser TokenT ValueT1)
    (parser2 : Parser TokenT ValueT2) tokens index :
  compose parser1 parser2 tokens index = Raise IndexError ↔
  parser1 tokens index = Raise IndexError ∨
  ∃ results1 value1 index1,
    parser1 tokens index = Ok results1 ∧
    (value1, index1) ∈ results1 ∧
    parser2 tokens index1 = Raise IndexError.
Proof.
  unfold compose. rewrite bind_Raise. split.
  - intros [Hp | (results1 & Hp & Hrest)]; [by left | right].
    apply bind_Raise in Hrest as [Hsets | (sets & _ & [=])].
    apply mapM_Raise in Hsets as ([value1 index1] & Hin%elem_of_elements & Hstep).
    apply bind_Raise in Hstep as [Hq | (results2 & _ & [=])].
    by exists results1, value1, index1.
  - intros [Hp | (results1 & value1 & index1 & Hp & Hin & Hq)]; [by left | right].
    exists results1. split; [done |]. apply bind_Raise. left.
    apply mapM_Raise. exists (value1, index1).
    split; [by apply elem_of_elements |]. by rewrite Hq.
Qed.

Lemma compose_Ok (parser1 : Parser TokenT ValueT1)
    (parser2 : Parser TokenT ValueT2) tokens index results :
  compose parser1 parser2 tokens index = Ok results →
  ∃ results1, parser1 tokens index = Ok results1 ∧
    (∀ value1 index1, (value1, index1) ∈ results1 →
       ∃ results2, parser2 tokens index1 = Ok results2) ∧
    ∀ value1 value2 index2,
      ((value1, value2), index2) ∈ results ↔
      ∃ index1 results2,
        (value1, index1) ∈ results1 ∧
        parser2 tokens index1 = Ok results2 ∧
        (value2, index2) ∈ results2.
Proof.
  intros Hres.
  destruct (result_cases (parser1 tokens index)) as [[results1 Hp] | Hp].
  2:{ assert (compose parser1 parser2 tokens index = Raise IndexError) as Hr
        by (apply compose_Raise; by left).
      congruence. }
  exists results1. split; [done |].
  assert (∀ value1 index1, (value1, index1) ∈ results1 →
            ∃ results2, parser2 tokens index1 = Ok results2) as Hq.
  { intros value1 index1 Hin.
    destruct (result_cases (parser2 tokens index1)) as [? | Hq]; [done |].
    assert (compose parser1 parser2 tokens index = Raise IndexError) as Hr
      by (apply compose_Raise; right; by exists results1, value1, index1).
    congruence. }
  split; [done |].
  destruct (compose_returns parser1 parser2 tokens index results1 Hp Hq)
    as (results' & Hres' & Hmem).
  rewrite Hres in Hres'. by injection Hres' as <-.
Qed.

Lemma apply_Raise (func : ValueT1 → ValueT2)
    (parser1 : Parser TokenT ValueT1) tokens index :
  apply func parser1 tokens index = Raise IndexError ↔
  parser1 tokens index = Raise IndexError.
Proof.
  unfold apply. rewrite bind_Raise. split; [|by left].
  by intros [? | (results & _ & [=])].
Qed.

Lemma apply_Ok (func : ValueT1 → ValueT2)
    (parser1 : Parser TokenT ValueT1) tokens index results' :
  apply func parser1 tokens index = Ok results' →
  ∃ results, parser1 tokens index = Ok results ∧
    ∀ value' index', (value', index') ∈ results' ↔
      ∃ value, value' = func value ∧ (value, index') ∈ results.
Proof.
  unfold apply. intros (results & Hp & [= <-])%bind_Ok.
  exists results. split; [done |]. intros value' index'. apply elem_of_apply.
Qed.
End outcome_lemmas.

Section either_outcome_lemmas.
Context {TokenT ValueT : Type} `{Countable ValueT}.

Lemma either_Raise (parser1 parser2 : Parser TokenT ValueT) tokens index :
  either parser1 parser2 tokens index = Raise IndexError ↔
  parser1 tokens index = Raise IndexError ∨
  parser2 tokens index = Raise IndexError.
Proof.
  unfold either.
  destruct (parser1 tokens index) as [results1|[]],
           (parser2 tokens index) as [results2|[]]; simpl;
    intuition congruence.
Qed.

Lemma either_Ok (parser1 parser2 : Parser TokenT ValueT) tokens index results :
  either parser1 parser2 tokens index = Ok results →
  ∃ results1 results2,
    parser1 tokens index = Ok results1 ∧
    parser2 tokens index = Ok results2 ∧
    ∀ x, x ∈ results ↔ x ∈ results1 ∨ x ∈ results2.
Proof.
  unfold either.
  intros (results1 & Hp1 & (results2 & Hp2 & [= <-])%bind_Ok)%bind_Ok.
  exists results1, results2. repeat split; try done.
  - by intros ?%elem_of_union.
  - by intros ?%elem_of_union.
Qed.
End either_outcome_lemmas.

(** ** Leaves: [emit], [transform] and [consume] outside the input *)

Lemma emit_returns {TokenT ValueT} `{Countable ValueT}
    (value : ValueT) (tokens : list TokenT) index :
  emit value tokens index = Ok {[ (value, index) ]}.
Proof. unfold emit, apply, noop. simpl. by rewrite set_map_singleton_L. Qed.

(** X1: [emit value] returns the single result [(value, index)] at every
    start index, inside the input or not: it reads no token, never raises
    and never moves the index. *)
Theorem emit_spec {TokenT ValueT} `{Countable ValueT}
    (value : ValueT) (tokens : list TokenT) index :
  emit value tokens index = Ok {[ (value, index) ]}.
Proof. apply emit_returns. Qed.

(** X2: from index 0 on, [transform pred func] returns the empty set at or
    past the end of the input and where [pred] rejects the token, and
    otherwise the single result made of [func] of the token and the next
    index. *)
Theorem transform_spec {TokenT ValueT} `{Countable TokenT, Countable ValueT}
    (pred : TokenT → bool) (func : TokenT → ValueT) tokens index
    (Hindex : 0 ≤ index) :
  transform pred func tokens index =
    Ok (match tokens !! Z.to_nat index with
        | Some tok => if pred tok then {[ (func tok, index + 1) ]} else ∅
        | None => ∅
        end).
Proof.
  unfold transform, apply. rewrite consume_nonneg by done. simpl. f_equal.
  destruct (tokens !! Z.to_nat index) as [tok|]; [|apply set_map_empty].
  destruct (pred tok); [|apply set_map_empty].
  by rewrite set_map_singleton_L.
Qed.

Lemma transform_spec_witness :
  transform isDigit toIntValue ["7"; "+"]%string 0 =
    Ok (match ["7"; "+"]%string !! Z.to_nat 0 with
        | Some tok => if isDigit tok then {[ (toIntValue tok, 0 + 1) ]} else ∅
        | None => ∅
        end).
Proof. apply (transform_spec isDigit toIntValue ["7"; "+"]%string 0). lia. Defined.

Lemma getitem_wraps {A} (tokens : list A) index :
  - len tokens ≤ index < 0 →
  ∃ tok, tokens !! Z.to_nat (index + len tokens) = Some tok ∧
         getitem tokens index = Ok tok.
Proof.
  intros Hrange. rewrite getitem_negative, getitem_nonneg by lia.
  destruct (tokens !! Z.to_nat (index + len tokens)) as [tok|] eqn:Htok.
  - by exists tok.
  - apply lookup_None_len in Htok; lia.
Qed.

(** X3: [consume pred] raises [IndexError] exactly at the start indices
    below [-len(tokens)]; everywhere else it returns. *)
Theorem consume_raises_iff {TokenT} `{Countable TokenT}
    (pred : TokenT → bool) tokens index :
  consume pred tokens index = Raise IndexError ↔ index < - len tokens.
Proof.
  pose proof (len_nonneg tokens).
  destruct (Z.le_gt_cases 0 index) as [Hpos|Hneg].
  - rewrite consume_nonneg by done. split; [done | lia].
  - rewrite consume_negative by done.
    destruct (Z.le_gt_cases (- len tokens) index) as [Hin|Hbelow].
    + destruct (getitem_wraps tokens index) as (tok & _ & ->); [lia |].
      simpl. split; [done | lia].
    + by rewrite getitem_below.
Qed.

(** X4: at a negative start index down to [-len(tokens)], [consume pred]
    reads the token that far from the end of the input, as Python's
    subscript does, and reports [index + 1] as the end index. *)
Theorem consume_wraps {TokenT} `{Countable TokenT}
    (pred : TokenT → bool) tokens index
    (Hindex : - len tokens ≤ index < 0) :
  ∃ tok, tokens !! Z.to_nat (index + len tokens) = Some tok ∧
    consume pred tokens index =
      Ok (if pred tok then {[ (tok, index + 1) ]} else ∅).
Proof.
  destruct (getitem_wraps tokens index Hindex) as (tok & Htok & Hget).
  exists tok. split; [done |].
  rewrite consume_negative by lia. by rewrite Hget.
Qed.

Lemma consume_wraps_witness :
  ∃ tok, ["1"; "+"; "2"]%string
           !! Z.to_nat (-1 + len ["1"; "+"; "2"]%string) = Some tok ∧
    consume isDigit ["1"; "+"; "2"]%string (-1) =
      Ok (if isDigit tok then {[ (tok, -1 + 1) ]} else ∅).
Proof.
  apply (consume_wraps isDigit ["1"; "+"; "2"]%string (-1)).
  unfold len. simpl. lia.
Defined.

(** ** Laws of alternation and mapping *)

(** X5: [either] is associative: the two nestings have the same outcome on
    every input. *)
Theorem either_assoc {TokenT ValueT} `{Countable ValueT}
    (parser1 parser2 parser3 : Parser TokenT ValueT) tokens index :
  either (either parser1 parser2) parser3 tokens index
    = either parser1 (either parser2 parser3) tokens index.
Proof.
  unfold either.
  destruct (parser1 tokens index) as [results1|[]],
           (parser2 tokens index) as [results2|[]],
           (parser3 tokens index) as [results3|[]]; simpl; try done.
  f_equal. symmetry. apply (assoc_L (∪)).
Qed.

(** X6: [apply] distributes over [either]. *)
Theorem apply_either {TokenT ValueT1 ValueT2}
    `{Countable ValueT1, Countable ValueT2}
    (func : ValueT1 → ValueT2) (parser1 parser2 : Parser TokenT ValueT1)
    tokens index :
  apply func (either parser1 parser2) tokens index
    = either (apply func parser1) (apply func parser2) tokens index.
Proof.
  unfold apply, either.
  destruct (parser1 tokens index) as [results1|[]],
           (parser2 tokens index) as [results2|[]]; simpl; try done.
  f_equal. apply set_map_union_L.
Qed.

(** ** Laws of sequential composition *)

Ltac same_outcome :=
  repeat match goal with
  | H1 : ?r = Ok _, H2 : ?r = Ok _ |- _ => rewrite H1 in H2; simplify_eq
  | H1 : ?r = Ok _, H2 : ?r = Raise _ |- _ => rewrite H1 in H2; discriminate
  end.

(** X7: [noop] is neutral on the left of [compose], up to the pairing with
    [None]: [compose noop parser] has the outcome of [parser] with each value
    paired with [None] on its left. *)
Theorem compose_noop_l {TokenT ValueT} `{Countable ValueT}
    (parser : Parser TokenT ValueT) tokens index :
  compose noop parser tokens index
    = apply (λ value, (tt, value)) parser tokens index.
Proof.
  apply result_set_ext.
  - rewrite compose_Raise, apply_Raise. split.
    + intros [[=] | (results1 & value1 & index1 & [= <-] & Hin & Hp)].
      apply elem_of_singleton in Hin. by simplify_eq.
    + intros Hp. right. exists {[ (tt, index) ]}, tt, index.
      split; [done |]. split; [by apply elem_of_singleton | done].
  - intros s1 s2 (results1 & [= <-] & _ & Hmem)%compose_Ok
      (results & Hp & Hmem')%apply_Ok [[[] value] index2].
    rewrite Hmem, Hmem'. split.
    + intros (index1 & results2 & Hin%elem_of_singleton & Hp2 & Hin2).
      simplify_eq. same_outcome. by exists value.
    + intros (value' & [= <-] & Hin). exists index, results.
      split; [by apply elem_of_singleton | done].
Qed.

(** X8: [noop] is neutral on the right of [compose], up to the pairing with
    [None]. *)
Theorem compose_noop_r {TokenT ValueT} `{Countable ValueT}
    (parser : Parser TokenT ValueT) tokens index :
  compose parser noop tokens index
    = apply (λ value, (value, tt)) parser tokens index.
Proof.
  apply result_set_ext.
  - rewrite compose_Raise, apply_Raise. split; [|by left].
    by intros [Hp | (results1 & value1 & index1 & _ & _ & [=])].
  - intros s1 s2 (results1 & Hp1 & _ & Hmem)%compose_Ok
      (results & Hp & Hmem')%apply_Ok [[value []] index2].
    same_outcome. rewrite Hmem, Hmem'. split.
    + intros (index1 & results2 & Hin & [= <-] & Hin2%elem_of_singleton).
      simplify_eq. by exists value.
    + intros (value' & [= <-] & Hin). exists index2, {[ (tt, index2) ]}.
      split; [done |]. split; [done | by apply elem_of_singleton].
Qed.

(** X9: [fail] on the left of [compose] gives the empty set on every input;
    the second parser is never run, so the composition returns even where
    that parser would raise. *)
Theorem compose_fail_l {TokenT ValueT1 ValueT2}
    `{Countable ValueT1, Countable ValueT2}
    (parser : Parser TokenT ValueT2) tokens index :
  compose (fail (ValueT := ValueT1)) parser tokens index = Ok ∅.
Proof. unfold compose, fail. simpl. by rewrite elements_empty. Qed.

(** X10: [fail] on the right of [compose]: when the first parser returns,
    the composition returns the empty set, whatever the first parser found. *)
Theorem compose_fail_r {TokenT ValueT1 ValueT2}
    `{Countable ValueT1, Countable ValueT2}
    (parser : Parser TokenT ValueT1) tokens index results
    (Hparser : parser tokens index = Ok results) :
  compose parser (fail (ValueT := ValueT2)) tokens index = Ok ∅.
Proof.
  destruct (compose_returns parser (fail (ValueT := ValueT2))
              tokens index results Hparser) as (results' & Hres & Hmem).
  { intros. by exists ∅. }
  rewrite Hres. f_equal. apply elem_of_equiv_empty_L.
  intros [[value1 value2] index2]. rewrite Hmem.
  intros (index1 & results2 & _ & [= <-] & Hin). set_solver.
Qed.

Lemma compose_fail_r_witness :
  compose (consume isDigit) (fail (ValueT := unit)) ["1"]%string 0 = Ok ∅.
Proof.
  apply (compose_fail_r (consume isDigit) ["1"]%string 0 {[ ("1"%string, 1) ]}).
  vm_compute. reflexivity.
Defined.

(** X11: [compose] raises exactly when the first parser raises, or the
    first parser returns and the second raises at one of its end indices. *)
Theorem compose_raises_iff {TokenT ValueT1 ValueT2}
    `{Countable ValueT1, Countable ValueT2}
    (parser1 : Parser TokenT ValueT1) (parser2 : Parser TokenT ValueT2)
    tokens index :
  compose parser1 parser2 tokens index = Raise IndexError ↔
  parser1 tokens index = Raise IndexError ∨
  ∃ results1 value1 index1,
    parser1 tokens index = Ok results1 ∧
    (value1, index1) ∈ results1 ∧
    parser2 tokens index1 = Raise IndexError.
Proof. apply compose_Raise. Qed.

(** X12: [either] raises exactly when one of its two parsers raises: the
    results of the other branch do not survive. *)
Theorem either_raises_iff {TokenT ValueT} `{Countable ValueT}
    (parser1 parser2 : Parser TokenT ValueT) tokens index :
  either parser1 parser2 tokens index = Raise IndexError ↔
  parser1 tokens index = Raise IndexError ∨
  parser2 tokens index = Raise IndexError.
Proof. apply either_Raise. Qed.

(** X13: [compose] distributes over [either] on the left. *)
Theorem compose_either_l {TokenT ValueT1 ValueT2}
    `{Countable ValueT1, Countable ValueT2}
    (parser1 parser1' : Parser TokenT ValueT1) (parser2 : Parser TokenT ValueT2)
    tokens index :
  compose (either parser1 parser1') parser2 tokens index
    = either (compose parser1 parser2) (compose parser1' parser2) tokens index.
Proof.
  apply result_set_ext.
  - rewrite either_Raise, !compose_Raise, either_Raise. split.
    + intros [[Hp | Hp] | (results & value1 & index1 & Hres & Hin & Hq)].
      * left. by left.
      * right. by left.
      * apply either_Ok in Hres as (results1 & results1' & Hp & Hp' & Hmem).
        apply Hmem in Hin as [Hin | Hin].
        -- left. right. by exists results1, value1, index1.
        -- right. right. by exists results1', value1, index1.
    + destruct (result_cases (either parser1 parser1' tokens index))
        as [[results Hres] | Hres]; [|apply either_Raise in Hres; by left].
      apply either_Ok in Hres as Hboth.
      destruct Hboth as (results1 & results1' & Hp & Hp' & Hmem).
      intros [[? | (r & value1 & index1 & ? & Hin & Hq)]
             | [? | (r & value1 & index1 & ? & Hin & Hq)]];
        same_outcome; right; exists results, value1, index1;
        (split; [done |]); (split; [|done]); apply Hmem; first [by left | by right].
  - intros s s' (results & Hres & _ & Hmem)%compose_Ok
      (r1 & r1' & (results1 & Hp & _ & Hmem1)%compose_Ok
          & (results1' & Hp' & _ & Hmem1')%compose_Ok & Hun)%either_Ok
      [[value1 value2] index2].
    apply either_Ok in Hres as (? & ? & ? & ? & Hmem0). same_outcome.
    rewrite Hmem, Hun, Hmem1, Hmem1'. split.
    + intros (index1 & results2 & [Hin | Hin]%Hmem0 & Hq & Hin2);
        [left | right]; by exists index1, results2.
    + intros [(index1 & results2 & Hin & Hq & Hin2)
             | (index1 & results2 & Hin & Hq & Hin2)];
        exists index1, results2; (split; [|done]); apply Hmem0; first [by left | by right].
Qed.

(** X14: [compose] distributes over [either] on the right. *)
Theorem compose_either_r {TokenT ValueT1 ValueT2}
    `{Countable ValueT1, Countable ValueT2}
    (parser1 : Parser TokenT ValueT1) (parser2 parser2' : Parser TokenT ValueT2)
    tokens index :
  compose parser1 (either parser2 parser2') tokens index
    = either (compose parser1 parser2) (compose parser1 parser2') tokens index.
Proof.
  apply result_set_ext.
  - rewrite either_Raise, !compose_Raise. split.
    + intros [Hp | (results1 & value1 & index1 & Hp & Hin & Hq)];
        [left; by left |].
      apply either_Raise in Hq as [Hq | Hq]; [left | right];
        right; by exists results1, value1, index1.
    + intros [[? | (results1 & value1 & index1 & Hp & Hin & Hq)]
             | [? | (results1 & value1 & index1 & Hp & Hin & Hq)]];
        try (by left); right; exists results1, value1, index1;
        (split; [done |]); (split; [done |]); apply either_Raise;
        first [by left | by right].
  - intros s s' (results1 & Hp & _ & Hmem)%compose_Ok
      (r & r' & (? & ? & Hq & Hmem1)%compose_Ok
         & (? & ? & Hq' & Hmem1')%compose_Ok & Hun)%either_Ok
      [[value1 value2] index2].
    same_outcome. rewrite Hmem, Hun, Hmem1, Hmem1'. split.
    + intros (index1 & results & Hin & Hres & Hin2).
      apply either_Ok in Hres as (results2 & results2' & ? & ? & Hmem2).
      apply Hmem2 in Hin2 as [Hin2 | Hin2]; [left | right];
        by eexists index1, _.
    + intros [(index1 & results2 & Hin & Hres & Hin2)
             | (index1 & results2' & Hin & Hres & Hin2)].
      * destruct (Hq' _ _ Hin) as [results2' Hres'].
        exists index1, (results2 ∪ results2'). split; [done |].
        split; [unfold either; by rewrite Hres, Hres' |].
        apply elem_of_union. by left.
      * destruct (Hq _ _ Hin) as [results2 Hres'].
        exists index1, (results2 ∪ results2'). split; [done |].
        split; [unfold either; by rewrite Hres, Hres' |].
        apply elem_of_union. by right.
Qed.

(** X15: mapping the first parser before [compose] is mapping the first
    component of the pairs after it. *)
Theorem compose_apply_l {TokenT ValueT1 ValueT1' ValueT2}
    `{Countable ValueT1, Countable ValueT1', Countable ValueT2}
    (func : ValueT1 → ValueT1')
    (parser1 : Parser TokenT ValueT1) (parser2 : Parser TokenT ValueT2)
    tokens index :
  compose (apply func parser1) parser2 tokens index
    = apply (λ x, (func (fst x), snd x)) (compose parser1 parser2) tokens index.
Proof.
  apply result_set_ext.
  - rewrite apply_Raise, !compose_Raise, apply_Raise. split.
    + intros [? | (results' & value' & index1 & Hres & Hin & Hq)]; [by left |].
      apply apply_Ok in Hres as (results1 & Hp & Hmem).
      apply Hmem in Hin as (value1 & -> & Hin).
      right. by exists results1, value1, index1.
    + intros [? | (results1 & value1 & index1 & Hp & Hin & Hq)]; [by left |].
      right. eexists _, (func value1), index1.
      split; [unfold apply; by rewrite Hp |]. split; [|done].
      apply elem_of_apply. by exists value1.
  - intros s s' (results' & (results1 & Hp & Hmem0)%apply_Ok & _ & Hmem)%compose_Ok
      (results & (? & ? & _ & Hmem1)%compose_Ok & Hmem')%apply_Ok
      [[value' value2] index2].
    same_outcome. rewrite Hmem, Hmem'. split.
    + intros (index1 & results2 & (value1 & -> & Hin)%Hmem0 & Hq & Hin2).
      exists (value1, value2). split; [done |].
      apply Hmem1. by exists index1, results2.
    + intros ([value1 value2'] & [= -> ->]
              & (index1 & results2 & Hin & Hq & Hin2)%Hmem1).
      exists index1, results2. split; [|done]. apply Hmem0. by exists value1.
Qed.

(** X16: mapping the second parser before [compose] is mapping the second
    component of the pairs after it. *)
Theorem compose_apply_r {TokenT ValueT1 ValueT2 ValueT2'}
    `{Countable ValueT1, Countable ValueT2, Countable ValueT2'}
    (func : ValueT2 → ValueT2')
    (parser1 : Parser TokenT ValueT1) (parser2 : Parser TokenT ValueT2)
    tokens index :
  compose parser1 (apply func parser2) tokens index
    = apply (λ x, (fst x, func (snd x))) (compose parser1 parser2) tokens index.
Proof.
  apply result_set_ext.
  - rewrite apply_Raise, !compose_Raise. split.
    + intros [? | (results1 & value1 & index1 & Hp & Hin & Hq%apply_Raise)];
        [by left |].
      right. by exists results1, value1, index1.
    + intros [? | (results1 & value1 & index1 & Hp & Hin & Hq)]; [by left |].
      right. exists results1, value1, index1.
      split; [done |]. split; [done |]. by apply apply_Raise.
  - intros s s' (results1 & Hp & _ & Hmem)%compose_Ok
      (results & (? & ? & _ & Hmem1)%compose_Ok & Hmem')%apply_Ok
      [[value1 value'] index2].
    same_outcome. rewrite Hmem, Hmem'. split.
    + intros (index1 & results' & Hin & Hres & Hin2).
      apply apply_Ok in Hres as (results2 & Hq & Hmem2).
      apply Hmem2 in Hin2 as (value2 & -> & Hin2).
      exists (value1, value2). split; [done |].
      apply Hmem1. by exists index1, results2.
    + intros ([value1' value2] & [= -> ->]
              & (index1 & results2 & Hin & Hq & Hin2)%Hmem1).
      eexists index1, _. split; [done |].
      split; [unfold apply; by rewrite Hq |].
      apply elem_of_apply. by exists value2.
Qed.

(** X17: [compose] is associative up to the nesting of the pairs: grouping
    to the left and re-nesting the output is grouping to the right. *)
Theorem compose_assoc {TokenT ValueT1 ValueT2 ValueT3}
    `{Countable ValueT1, Countable ValueT2, Countable ValueT3}
    (parser1 : Parser TokenT ValueT1) (parser2 : Parser TokenT ValueT2)
    (parser3 : Parser TokenT ValueT3) tokens index :
  apply reassoc (compose (compose parser1 parser2) parser3) tokens index
    = compose parser1 (compose parser2 parser3) tokens index.
Proof.
  apply result_set_ext.
  - rewrite apply_Raise, !compose_Raise. split.
    + intros [[? | (results1 & value1 & index1 & Hp & Hin & Hq)]
             | (results12 & [value1 value2] & index2 & Hres & Hin & Hr)].
      * by left.
      * right. exists results1, value1, index1.
        split; [done |]. split; [done |]. apply compose_Raise. by left.
      * apply compose_Ok in Hres as (results1 & Hp & _ & Hmem).
        apply Hmem in Hin as (index1 & results2 & Hin1 & Hq & Hin2).
        right. exists results1, value1, index1.
        split; [done |]. split; [done |]. apply compose_Raise. right.
        by exists results2, value2, index2.
    + intros [? | (results1 & value1 & index1 & Hp & Hin1 & Hqr)];
        [left; by left |].
      apply compose_Raise in Hqr
        as [Hq | (results2 & value2 & index2 & Hq & Hin2 & Hr)].
      * left. right. by exists results1, value1, index1.
      * destruct (result_cases (compose parser1 parser2 tokens index))
          as [[results12 Hres] | Hres]; [|by left; apply compose_Raise].
        right. exists results12, (value1, value2), index2.
        split; [done |]. split; [|done].
        apply compose_Ok in Hres as (? & ? & _ & Hmem). same_outcome.
        apply Hmem. by exists index1, results2.
  - intros s s'
      (results & (results12 & (results1 & Hp & _ & Hmem12)%compose_Ok
                  & _ & Hmem)%compose_Ok & Hmem')%apply_Ok
      (? & ? & Hret23 & Hmem1)%compose_Ok
      [[value1 [value2 value3]] index3].
    same_outcome. rewrite Hmem', Hmem1. split.
    + intros ([[value1' value2'] value3'] & [= <- <- <-] & Hin).
      apply Hmem in Hin as (index2 & results3 & Hin & Hr & Hin3).
      apply Hmem12 in Hin as (index1 & results2 & Hin1 & Hq & Hin2).
      destruct (Hret23 _ _ Hin1) as [results23 Hres23].
      exists index1, results23. split; [done |]. split; [done |].
      apply compose_Ok in Hres23 as (? & ? & _ & Hmem23). same_outcome.
      apply Hmem23. by exists index2, results3.
    + intros (index1 & results23 & Hin1 & Hres23 & Hin).
      apply compose_Ok in Hres23 as (results2 & Hq & _ & Hmem23).
      apply Hmem23 in Hin as (index2 & results3 & Hin2 & Hr & Hin3).
      exists ((value1, value2), value3). split; [done |].
      apply Hmem. exists index2, results3. split; [|done].
      apply Hmem12. by exists index1, results2.
Qed.

(** ** Laws of the derived combinators *)

(** X18: combining with [emit value] on the left is mapping: no token is
    read for the emitted value. *)
Theorem combine_emit_l {TokenT ValueT1 ValueT2 ValueT3}
    `{Countable ValueT1, Countable ValueT2, Countable ValueT3}
    (value : ValueT1) (parser : Parser TokenT ValueT2)
    (func : ValueT1 → ValueT2 → ValueT3) tokens index :
  combine (emit value) parser func tokens index
    = apply (func value) parser tokens index.
Proof.
  unfold combine. apply result_set_ext.
  - rewrite !apply_Raise, compose_Raise. split.
    + intros [Hemit | (results1 & value1 & index1 & Hemit & Hin & Hp)];
        rewrite emit_returns in Hemit; [done |].
      injection Hemit as <-. apply elem_of_singleton in Hin. by simplify_eq.
    + intros Hp. right. exists {[ (value, index) ]}, value, index.
      split; [apply emit_returns |]. split; [by apply elem_of_singleton | done].
  - intros s s' (results & (results1 & Hemit & _ & Hmem)%compose_Ok & Hmem')%apply_Ok
      (results2 & Hp & Hmem2)%apply_Ok [value3 index2].
    rewrite emit_returns in Hemit. injection Hemit as <-.
    rewrite Hmem', Hmem2. split.
    + intros ([value1 value2] & -> & Hin).
      apply Hmem in Hin as (index1 & ? & Hin1%elem_of_singleton & ? & Hin2).
      simplify_eq. same_outcome. by exists value2.
    + intros (value2 & -> & Hin2). exists (value, value2). split; [done |].
      apply Hmem. exists index, results2.
      split; [by apply elem_of_singleton | done].
Qed.

(** X19: combining with [emit value] on the right is mapping as well. *)
Theorem combine_emit_r {TokenT ValueT1 ValueT2 ValueT3}
    `{Countable ValueT1, Countable ValueT2, Countable ValueT3}
    (parser : Parser TokenT ValueT1) (value : ValueT2)
    (func : ValueT1 → ValueT2 → ValueT3) tokens index :
  combine parser (emit value) func tokens index
    = apply (λ value1, func value1 value) parser tokens index.
Proof.
  unfold combine. apply result_set_ext.
  - rewrite !apply_Raise, compose_Raise. split; [|by left].
    intros [? | (results1 & value1 & index1 & _ & _ & Hemit)]; [done |].
    by rewrite emit_returns in Hemit.
  - intros s s' (results & (results1 & Hp & _ & Hmem)%compose_Ok & Hmem')%apply_Ok
      (? & ? & Hmem1)%apply_Ok [value3 index2].
    same_outcome. rewrite Hmem', Hmem1. split.
    + intros ([value1 value2] & -> & Hin).
      apply Hmem in Hin as (index1 & ? & Hin1 & Hemit & Hin2).
      rewrite emit_returns in Hemit. injection Hemit as <-.
      apply elem_of_singleton in Hin2. simplify_eq. by exists value1.
    + intros (value1 & -> & Hin1). exists (value1, value). split; [done |].
      apply Hmem. exists index2, {[ (value, index2) ]}.
      split; [done |]. split; [apply emit_returns | by apply elem_of_singleton].
Qed.

(** X20: an alternation of two [consume]s is one [consume] of the
    disjunction of the predicates, at every start index. *)
Theorem either_consume {TokenT} `{Countable TokenT}
    (pred1 pred2 : TokenT → bool) tokens index :
  either (consume pred1) (consume pred2) tokens index
    = consume (λ tok, pred1 tok || pred2 tok) tokens index.
Proof.
  unfold either. destruct (Z.le_gt_cases 0 index) as [Hpos|Hneg].
  - rewrite !consume_nonneg by done. simpl. f_equal.
    destruct (tokens !! Z.to_nat index) as [tok|]; [|apply (left_id_L ∅ (∪))].
    destruct (pred1 tok), (pred2 tok); simpl;
      first [apply (idemp_L (∪)) | apply (left_id_L ∅ (∪))
            | apply (right_id_L ∅ (∪))].
  - rewrite !consume_negative by done.
    destruct (getitem tokens index) as [tok|[]]; [|done]. simpl. f_equal.
    destruct (pred1 tok), (pred2 tok); simpl;
      first [apply (idemp_L (∪)) | apply (left_id_L ∅ (∪))
            | apply (right_id_L ∅ (∪))].
Qed.

(** X21: [apply] never adds results: when [parser] returns, the set that
    [apply func parser] returns has at most as many members, and as many
    when [func] is injective. *)
Theorem apply_size {TokenT ValueT1 ValueT2}
    `{Countable ValueT1, Countable ValueT2}
    (func : ValueT1 → ValueT2) (parser : Parser TokenT ValueT1)
    tokens index results
    (Hparser : parser tokens index = Ok results) :
  ∃ results', apply func parser tokens index = Ok results' ∧
    (size results' ≤ size results)%nat ∧
    (Inj (=) (=) func → size results' = size results).
Proof.
  unfold apply. rewrite Hparser. eexists. split; [reflexivity |].
  set (pairing := λ '(value, index), (func value, index)).
  split.
  - unfold size at 2, set_size. simpl.
    rewrite <- (length_fmap pairing (elements results)).
    apply submseteq_length, NoDup_submseteq; [apply NoDup_elements |].
    intros x Hx%elem_of_elements%elem_of_map.
    destruct Hx as (y & -> & Hy). apply list_elem_of_fmap.
    exists y. split; [done | by apply elem_of_elements].
  - intros Hinj. unfold set_map. rewrite size_list_to_set.
    + by rewrite length_fmap.
    + apply NoDup_fmap_2_strong; [|apply NoDup_elements].
      intros [value1 index1] [value2 index2] _ _ [= Hv ->].
      by rewrite (Hinj _ _ Hv).
Qed.

Lemma apply_size_witness :
  ∃ results', apply toIntValue (consume isDigit) ["2"]%string 0 = Ok results' ∧
    (size results' ≤ size ({[ ("2"%string, 1%Z) ]} : gset (string * Z)))%nat ∧
    (Inj (=) (=) toIntValue →
     size results' = size ({[ ("2"%string, 1) ]} : gset (string * Z))).
Proof.
  apply (apply_size toIntValue (consume isDigit) ["2"]%string 0).
  vm_compute. reflexivity.
Defined.

(** ** Built parsers from any index at or after 0 *)

Section forward_lemmas.
Context {TokenT : Type}.

Lemma fail_forward {ValueT} `{Countable ValueT} :
  returns_forward (fail (TokenT := TokenT) (ValueT := ValueT)).
Proof.
  intros tokens index _. exists ∅. split; [done |].
  by intros ?? ?%elem_of_empty.
Qed.

Lemma noop_forward : returns_forward (noop (TokenT := TokenT)).
Proof.
  intros tokens index Hindex. eexists. split; [reflexivity |].
  intros value index' [= _ ->]%elem_of_singleton. lia.
Qed.

Lemma consume_forward `{Countable TokenT} (pred : TokenT → bool) :
  returns_forward (consume pred).
Proof.
  intros tokens index Hindex. eexists. split; [by apply consume_nonneg |].
  intros value index'.
  destruct (tokens !! Z.to_nat index) as [tok|] eqn:Htok;
    [|by intros ?%elem_of_empty].
  destruct (pred tok); [|by intros ?%elem_of_empty].
  intros [= _ ->]%elem_of_singleton.
  apply lookup_lt_Some in Htok. unfold len. lia.
Qed.

Lemma either_forward {ValueT} `{Countable ValueT}
    (parser1 parser2 : Parser TokenT ValueT) :
  returns_forward parser1 → returns_forward parser2 →
  returns_forward (either parser1 parser2).
Proof.
  intros H1 H2 tokens index Hindex.
  destruct (H1 tokens index Hindex) as (results1 & Hres1 & Hb1).
  destruct (H2 tokens index Hindex) as (results2 & Hres2 & Hb2).
  exists (results1 ∪ results2). split.
  - unfold either. by rewrite Hres1, Hres2.
  - intros value index' [Hin|Hin]%elem_of_union; eauto.
Qed.
End forward_lemmas.

Section forward_mapping.
Context {TokenT ValueT1 ValueT2 : Type}.
Context `{Countable ValueT1, Countable ValueT2}.

Lemma apply_forward (func : ValueT1 → ValueT2)
    (parser : Parser TokenT ValueT1) :
  returns_forward parser → returns_forward (apply func parser).
Proof.
  intros Hp tokens index Hindex.
  destruct (Hp tokens index Hindex) as (results & Hres & Hb).
  eexists. split; [unfold apply; by rewrite Hres |].
  intros value' index' (value & _ & Hin)%elem_of_apply. eauto.
Qed.

Lemma compose_forward (parser1 : Parser TokenT ValueT1)
    (parser2 : Parser TokenT ValueT2) :
  returns_forward parser1 → returns_forward parser2 →
  returns_forward (compose parser1 parser2).
Proof.
  intros H1 H2 tokens index Hindex.
  destruct (H1 tokens index Hindex) as (results1 & Hres1 & Hb1).
  destruct (compose_returns parser1 parser2 tokens index results1)
    as (results & Hres & Hmem); [done | |].
  { intros value1 index1 Hin.
    destruct (H2 tokens index1) as (results2 & Hres2 & _); [|by eexists].
    apply Hb1 in Hin. lia. }
  exists results. split; [done |].
  intros [value1 value2] index2
    (index1 & results2 & Hin1 & Hres2 & Hin2)%Hmem.
  apply Hb1 in Hin1.
  destruct (H2 tokens index1) as (results2' & Hres2' & Hb2); [lia |].
  same_outcome. apply Hb2 in Hin2. lia.
Qed.
End forward_mapping.

Lemma Built_returns_forward {TokenT} `{Countable TokenT}
    {ValueT} `{Countable ValueT} (parser : Parser TokenT ValueT) :
  Built ValueT parser → returns_forward parser.
Proof.
  induction 1.
  - apply fail_forward.
  - apply noop_forward.
  - apply consume_forward.
  - by apply compose_forward.
  - by apply either_forward.
  - by apply apply_forward.
  - apply apply_forward, noop_forward.
  - apply apply_forward, consume_forward.
  - by apply apply_forward, compose_forward.
Qed.

(** X22: a parser built from the module's constructors and started at any
    index from 0 on, also past the end of the input, returns without
    raising; no end index lies before the start, and none lies past the end
    of the input unless the start did, in which case nothing is consumed. *)
Theorem built_returns_forward {TokenT} `{Countable TokenT}
    {ValueT} `{Countable ValueT} (parser : Parser TokenT ValueT)
    tokens index
    (Hbuilt : Built ValueT parser)
    (Hindex : 0 ≤ index) :
  ∃ results, parser tokens index = Ok results ∧
    ∀ value index', (value, index') ∈ results →
      index ≤ index' ≤ Z.max index (len tokens) ∧
      (len tokens ≤ index → index' = index).
Proof.
  destruct (Built_returns_forward parser Hbuilt tokens index Hindex)
    as (results & Hres & Hb).
  exists results. split; [done |].
  intros value index' Hin%Hb. lia.
Qed.

Lemma built_returns_forward_witness :
  ∃ results, sum ["1"; "+"; "2"]%string 7 = Ok results ∧
    ∀ value index', (value, index') ∈ results →
      7 ≤ index' ≤ Z.max 7 (len ["1"; "+"; "2"]%string) ∧
      (len ["1"; "+"; "2"]%string ≤ 7 → index' = 7).
Proof.
  apply (built_returns_forward sum ["1"; "+"; "2"]%string 7).
  - unfold sum, digit, plus. repeat constructor.
  - lia.
Defined.

(** ** Built parsers see only the tokens from their start index on *)

Section shift_lemmas.
Context {ValueT : Type} `{Countable ValueT}.

Lemma elem_of_shift (offset : Z) (results : gset (ValueT * Z)) value index' :
  (value, index') ∈ shift offset results ↔ (value, index' - offset) ∈ results.
Proof.
  unfold shift. rewrite elem_of_map. split.
  - intros ([value0 index0] & [= -> ->] & Hin).
    by replace (index0 + offset - offset) with index0 by lia.
  - intros Hin. exists (value, index' - offset). split; [|done].
    f_equal. lia.
Qed.

Lemma shift_empty (offset : Z) : shift offset (∅ : gset (ValueT * Z)) = ∅.
Proof. apply set_map_empty. Qed.

Lemma shift_singleton (offset : Z) (value : ValueT) index :
  shift offset {[ (value, index) ]} = {[ (value, index + offset) ]}.
Proof. unfold shift. by rewrite set_map_singleton_L. Qed.

Lemma shift_union (offset : Z) (results1 results2 : gset (ValueT * Z)) :
  shift offset (results1 ∪ results2)
    = shift offset results1 ∪ shift offset results2.
Proof. apply set_map_union_L. Qed.
End shift_lemmas.

Section prefix_lemmas.
Context {TokenT : Type}.

Lemma fail_prefix {ValueT} `{Countable ValueT} :
  prefix_independent (fail (TokenT := TokenT) (ValueT := ValueT)).
Proof.
  intros prefix tokens index _. exists ∅. split; [done |].
  unfold fail. by rewrite shift_empty.
Qed.

Lemma noop_prefix : prefix_independent (noop (TokenT := TokenT)).
Proof.
  intros prefix tokens index _. eexists. split; [reflexivity |].
  unfold noop. by rewrite shift_singleton.
Qed.

Lemma consume_prefix `{Countable TokenT} (pred : TokenT → bool) :
  prefix_independent (consume pred).
Proof.
  intros prefix tokens index Hindex. pose proof (len_nonneg prefix).
  eexists. split; [by apply consume_nonneg |].
  rewrite consume_nonneg by lia. f_equal.
  replace (Z.to_nat (index + len prefix))
    with (length prefix + Z.to_nat index)%nat by (unfold len; lia).
  rewrite lookup_app_r by lia.
  replace (length prefix + Z.to_nat index - length prefix)%nat
    with (Z.to_nat index) by lia.
  destruct (tokens !! Z.to_nat index) as [tok|]; [|by rewrite shift_empty].
  destruct (pred tok); [|by rewrite shift_empty].
  rewrite shift_singleton. do 2 f_equal. lia.
Qed.

Lemma either_prefix {ValueT} `{Countable ValueT}
    (parser1 parser2 : Parser TokenT ValueT) :
  prefix_independent parser1 → prefix_independent parser2 →
  prefix_independent (either parser1 parser2).
Proof.
  intros H1 H2 prefix tokens index Hindex.
  destruct (H1 prefix tokens index Hindex) as (results1 & Hres1 & Hpre1).
  destruct (H2 prefix tokens index Hindex) as (results2 & Hres2 & Hpre2).
  exists (results1 ∪ results2). unfold either.
  rewrite Hres1, Hres2, Hpre1, Hpre2. split; [done |].
  simpl. by rewrite shift_union.
Qed.
End prefix_lemmas.

Section prefix_mapping.
Context {TokenT ValueT1 ValueT2 : Type}.
Context `{Countable ValueT1, Countable ValueT2}.

Lemma apply_prefix (func : ValueT1 → ValueT2)
    (parser : Parser TokenT ValueT1) :
  prefix_independent parser → prefix_independent (apply func parser).
Proof.
  intros Hp prefix tokens index Hindex.
  destruct (Hp prefix tokens index Hindex) as (results & Hres & Hpre).
  eexists. unfold apply. rewrite Hres, Hpre. split; [reflexivity |].
  simpl. f_equal. apply set_eq. intros [value' index'].
  rewrite elem_of_shift, !elem_of_apply.
  split; intros (value & -> & Hin); exists value; split; try done;
    by apply elem_of_shift.
Qed.

Lemma compose_prefix (parser1 : Parser TokenT ValueT1)
    (parser2 : Parser TokenT ValueT2) :
  returns_forward parser1 →
  prefix_independent parser1 → prefix_independent parser2 →
  prefix_independent (compose parser1 parser2).
Proof.
  intros Hfwd H1 H2 prefix tokens index Hindex.
  destruct (Hfwd tokens index Hindex) as (results1 & Hres1 & Hb1).
  destruct (H1 prefix tokens index Hindex) as (results1' & Hres1' & Hpre1).
  rewrite Hres1 in Hres1'. injection Hres1' as <-.
  destruct (compose_returns parser1 parser2 tokens index results1)
    as (results & Hres & Hmem); [done | |].
  { intros value1 index1 Hin%Hb1.
    destruct (H2 prefix tokens index1) as (results2 & ? & _); [lia |].
    by exists results2. }
  destruct (compose_returns parser1 parser2 (prefix ++ tokens)
              (index + len prefix) (shift (len prefix) results1))
    as (results' & Hres' & Hmem'); [done | |].
  { intros value1 index1' Hin%elem_of_shift. apply Hb1 in Hin as Hge.
    destruct (H2 prefix tokens (index1' - len prefix))
      as (results2 & _ & Hpre2); [lia |].
    replace (index1' - len prefix + len prefix) with index1' in Hpre2 by lia.
    by eexists. }
  exists results. split; [done |]. rewrite Hres'. f_equal.
  apply set_eq. intros [[value1 value2] index2'].
  rewrite elem_of_shift, Hmem, Hmem'. split.
  - intros (index1' & results2' & Hin1%elem_of_shift & Hq' & Hin2).
    apply Hb1 in Hin1 as Hge.
    destruct (H2 prefix tokens (index1' - len prefix))
      as (results2 & Hq & Hpre2); [lia |].
    replace (index1' - len prefix + len prefix) with index1' in Hpre2 by lia.
    rewrite Hq' in Hpre2. injection Hpre2 as ->.
    exists (index1' - len prefix), results2.
    split; [done |]. split; [done |]. by apply elem_of_shift.
  - intros (index1 & results2 & Hin1 & Hq & Hin2).
    apply Hb1 in Hin1 as Hge.
    destruct (H2 prefix tokens index1) as (results2' & Hq2 & Hpre2); [lia |].
    rewrite Hq in Hq2. injection Hq2 as <-.
    exists (index1 + len prefix), (shift (len prefix) results2).
    split; [|split; [done | by apply elem_of_shift]].
    apply elem_of_shift.
    by replace (index1 + len prefix - len prefix) with index1 by lia.
Qed.
End prefix_mapping.

Lemma Built_prefix_independent {TokenT} `{Countable TokenT}
    {ValueT} `{Countable ValueT} (parser : Parser TokenT ValueT) :
  Built ValueT parser → prefix_independent parser.
Proof.
  induction 1.
  - apply fail_prefix.
  - apply noop_prefix.
  - apply consume_prefix.
  - apply compose_prefix; [by apply Built_returns_forward | done..].
  - by apply either_prefix.
  - by apply apply_prefix.
  - apply apply_prefix, noop_prefix.
  - apply apply_prefix, consume_prefix.
  - apply apply_prefix, compose_prefix;
      [by apply Built_returns_forward | done..].
Qed.

(** X23: a built parser started at an index from 0 on does not see the
    tokens before it: with any tokens put in front of the input and the
    start index moved by their number, it returns the same values, with the
    end indices moved by that number. *)
Theorem built_prefix_independent {TokenT} `{Countable TokenT}
    {ValueT} `{Countable ValueT} (parser : Parser TokenT ValueT)
    prefix tokens index
    (Hbuilt : Built ValueT parser)
    (Hindex : 0 ≤ index) :
  ∃ results, parser tokens index = Ok results ∧
    parser (prefix ++ tokens) (index + len prefix)
      = Ok (shift (len prefix) results) ∧
    ∀ value index',
      (value, index') ∈ shift (len prefix) results ↔
      (value, index' - len prefix) ∈ results.
Proof.
  destruct (Built_prefix_independent parser Hbuilt prefix tokens index Hindex)
    as (results & Hres & Hpre).
  exists results. split; [done |]. split; [done |].
  intros value index'. apply elem_of_shift.
Qed.

Lemma built_prefix_independent_witness :
  ∃ results, sum ["1"; "+"; "2"]%string 0 = Ok results ∧
    sum (["("; "9"]%string ++ ["1"; "+"; "2"]%string)
        (0 + len ["("; "9"]%string)
      = Ok (shift (len ["("; "9"]%string) results) ∧
    ∀ value index',
      (value, index') ∈ shift (len ["("; "9"]%string) results ↔
      (value, index' - len ["("; "9"]%string) ∈ results.
Proof.
  apply (built_prefix_independent sum ["("; "9"]%string ["1"; "+"; "2"]%string 0).
  - unfold sum, digit, plus. repeat constructor.
  - lia.
Defined.

(** ** Results of built parsers do not depend on the tokens after them *)

Section suffix_lemmas.
Context {TokenT : Type}.

Lemma fail_suffix {ValueT} `{Countable ValueT} :
  suffix_independent (fail (TokenT := TokenT) (ValueT := ValueT)).
Proof.
  intros tokens suffix index _. exists ∅, ∅. split; [done |]. split; [done |].
  intros value index'. split; [by intros ?%elem_of_empty |].
  by intros [?%elem_of_empty _].
Qed.

Lemma noop_suffix : suffix_independent (noop (TokenT := TokenT)).
Proof.
  intros tokens suffix index Hindex. eexists _, _.
  split; [reflexivity |]. split; [reflexivity |].
  intros value index'. rewrite elem_of_singleton. split; [|by intros [? _]].
  intros [= -> ->]. split; [done | lia].
Qed.

Lemma consume_suffix `{Countable TokenT} (pred : TokenT → bool) :
  suffix_independent (consume pred).
Proof.
  intros tokens suffix index [Hlo Hhi]. eexists _, _.
  split; [by apply consume_nonneg |]. split; [by apply consume_nonneg |].
  intros value index'.
  destruct (Z.lt_ge_cases index (len tokens)) as [Hlt|Hge].
  - rewrite lookup_app_l by (unfold len in Hlt; lia).
    destruct (tokens !! Z.to_nat index) as [tok|];
      [|split; [by intros ?%elem_of_empty | by intros [?%elem_of_empty _]]].
    destruct (pred tok);
      [|split; [by intros ?%elem_of_empty | by intros [?%elem_of_empty _]]].
    rewrite elem_of_singleton. split; [|by intros [? _]].
    intros [= -> ->]. split; [done | lia].
  - apply (lookup_None_len tokens index Hlo) in Hge as Hnone. rewrite Hnone.
    split; [by intros ?%elem_of_empty |].
    destruct ((tokens ++ suffix) !! Z.to_nat index) as [tok|];
      [|by intros [?%elem_of_empty _]].
    destruct (pred tok); [|by intros [?%elem_of_empty _]].
    intros [[= _ ->]%elem_of_singleton Hle]. lia.
Qed.

Lemma either_suffix {ValueT} `{Countable ValueT}
    (parser1 parser2 : Parser TokenT ValueT) :
  suffix_independent parser1 → suffix_independent parser2 →
  suffix_independent (either parser1 parser2).
Proof.
  intros H1 H2 tokens suffix index Hindex.
  destruct (H1 tokens suffix index Hindex)
    as (results1 & results1' & Hres1 & Hres1' & Hiff1).
  destruct (H2 tokens suffix index Hindex)
    as (results2 & results2' & Hres2 & Hres2' & Hiff2).
  exists (results1 ∪ results2), (results1' ∪ results2'). unfold either.
  rewrite Hres1, Hres2, Hres1', Hres2'. split; [done |]. split; [done |].
  intros value index'. rewrite !elem_of_union, Hiff1, Hiff2. tauto.
Qed.
End suffix_lemmas.

Section suffix_mapping.
Context {TokenT ValueT1 ValueT2 : Type}.
Context `{Countable ValueT1, Countable ValueT2}.

Lemma apply_suffix (func : ValueT1 → ValueT2)
    (parser : Parser TokenT ValueT1) :
  suffix_independent parser → suffix_independent (apply func parser).
Proof.
  intros Hp tokens suffix index Hindex.
  destruct (Hp tokens suffix index Hindex)
    as (results & results' & Hres & Hres' & Hiff).
  eexists _, _. unfold apply. rewrite Hres, Hres'.
  split; [reflexivity |]. split; [reflexivity |].
  intros value' index'. rewrite !elem_of_apply. split.
  - intros (value & -> & [Hin Hle]%Hiff). split; [by exists value | done].
  - intros [(value & -> & Hin) Hle]. exists value. split; [done |].
    by apply Hiff.
Qed.

Lemma compose_suffix (parser1 : Parser TokenT ValueT1)
    (parser2 : Parser TokenT ValueT2) :
  returns_forward parser1 → returns_forward parser2 →
  suffix_independent parser1 → suffix_independent parser2 →
  suffix_independent (compose parser1 parser2).
Proof.
  intros Hf1 Hf2 H1 H2 tokens suffix index Hindex.
  destruct (H1 tokens suffix index Hindex)
    as (results1 & results1' & Hres1 & Hres1' & Hiff1).
  destruct (Hf1 tokens index) as (r & Hr & Hb1); [lia |].
  rewrite Hres1 in Hr. injection Hr as <-.
  destruct (Hf1 (tokens ++ suffix) index) as (r & Hr & Hb1'); [lia |].
  rewrite Hres1' in Hr. injection Hr as <-.
  destruct (compose_returns parser1 parser2 tokens index results1)
    as (results & Hres & Hmem); [done | |].
  { intros value1 index1 Hin%Hb1.
    destruct (Hf2 tokens index1) as (results2 & ? & _); [lia |].
    by exists results2. }
  destruct (compose_returns parser1 parser2 (tokens ++ suffix) index results1')
    as (results' & Hres' & Hmem'); [done | |].
  { intros value1 index1 Hin%Hb1'.
    destruct (Hf2 (tokens ++ suffix) index1) as (results2 & ? & _); [lia |].
    by exists results2. }
  exists results, results'. split; [done |]. split; [done |].
  intros [value1 value2] index2. rewrite Hmem, Hmem'. split.
  - intros (index1 & results2 & Hin1 & Hq & Hin2).
    apply Hb1 in Hin1 as Hrange.
    destruct (H2 tokens suffix index1)
      as (r & results2' & Hr & Hq' & Hiff2); [lia |].
    rewrite Hq in Hr. injection Hr as <-.
    apply Hiff2 in Hin2 as [Hin2 Hle]. split; [|done].
    exists index1, results2'. split; [by apply Hiff1 | done].
  - intros [(index1 & results2' & Hin1 & Hq' & Hin2) Hle].
    apply Hb1' in Hin1 as Hge.
    destruct (Hf2 (tokens ++ suffix) index1) as (r & Hr & Hb2'); [lia |].
    rewrite Hq' in Hr. injection Hr as <-.
    apply Hb2' in Hin2 as Hge2.
    destruct (H2 tokens suffix index1)
      as (results2 & r & Hq & Hr & Hiff2); [lia |].
    rewrite Hq' in Hr. injection Hr as <-.
    exists index1, results2. split; [apply Hiff1; split; [done | lia] |].
    split; [done |]. by apply Hiff2.
Qed.
End suffix_mapping.

Lemma Built_suffix_independent {TokenT} `{Countable TokenT}
    {ValueT} `{Countable ValueT} (parser : Parser TokenT ValueT) :
  Built ValueT parser → suffix_independent parser.
Proof.
  induction 1.
  - apply fail_suffix.
  - apply noop_suffix.
  - apply consume_suffix.
  - apply compose_suffix; by try apply Built_returns_forward.
  - by apply either_suffix.
  - by apply apply_suffix.
  - apply apply_suffix, noop_suffix.
  - apply apply_suffix, consume_suffix.
  - apply apply_suffix, compose_suffix; by try apply Built_returns_forward.
Qed.

(** X24: the results of a built parser that end within [tokens] do not
    depend on what follows [tokens]: started within [tokens] on the input
    [tokens ++ suffix], it returns the results it returns on [tokens] alone,
    together with results that end inside [suffix] only. *)
Theorem built_suffix_independent {TokenT} `{Countable TokenT}
    {ValueT} `{Countable ValueT} (parser : Parser TokenT ValueT)
    tokens suffix index
    (Hbuilt : Built ValueT parser)
    (Hindex : 0 ≤ index ≤ len tokens) :
  ∃ results results',
    parser tokens index = Ok results ∧
    parser (tokens ++ suffix) index = Ok results' ∧
    ∀ value index',
      (value, index') ∈ results ↔
      (value, index') ∈ results' ∧ index' ≤ len tokens.
Proof. by apply Built_suffix_independent. Qed.

Lemma built_suffix_independent_witness :
  ∃ results results',
    sum ["1"; "+"; "2"]%string 0 = Ok results ∧
    sum (["1"; "+"; "2"]%string ++ ["+"; "4"]%string) 0 = Ok results' ∧
    ∀ value index',
      (value, index') ∈ results ↔
      (value, index') ∈ results' ∧ index' ≤ len ["1"; "+"; "2"]%string.
Proof.
  apply (built_suffix_independent sum ["1"; "+"; "2"]%string ["+"; "4"]%string 0).
  - unfold sum, digit, plus. repeat constructor.
  - unfold len. simpl. lia.
Defined.

(** ** Results of [combine], and where ambiguity comes from *)

(** X25: when [parser1] returns [results1] and [parser2] returns at each
    end index in it, [combine parser1 parser2 func] returns the set of the
    [(func value1 value2, index2)] over the results [(value1, index1)] of
    [parser1] and [(value2, index2)] of [parser2] run at [index1]; the
    pairs themselves are not part of the output. *)
Theorem combine_members {TokenT ValueT1 ValueT2 ValueT3}
    `{Countable ValueT1, Countable ValueT2, Countable ValueT3}
    (parser1 : Parser TokenT ValueT1) (parser2 : Parser TokenT ValueT2)
    (func : ValueT1 → ValueT2 → ValueT3) tokens index results1
    (Hparser1 : parser1 tokens index = Ok results1)
    (Hparser2 : ∀ value1 index1, (value1, index1) ∈ results1 →
                  ∃ results2, parser2 tokens index1 = Ok results2) :
  ∃ results, combine parser1 parser2 func tokens index = Ok results ∧
    ∀ value3 index2,
      (value3, index2) ∈ results ↔
      ∃ value1 index1 value2 results2,
        (value1, index1) ∈ results1 ∧
        parser2 tokens index1 = Ok results2 ∧
        (value2, index2) ∈ results2 ∧
        value3 = func value1 value2.
Proof.
  destruct (compose_returns parser1 parser2 tokens index results1)
    as (pairs & Hpairs & Hmem); [done.. |].
  eexists. unfold combine, apply. rewrite Hpairs. split; [reflexivity |].
  intros value3 index2. rewrite elem_of_apply. split.
  - intros ([value1 value2] & -> & Hin).
    apply Hmem in Hin as (index1 & results2 & Hin1 & Hq & Hin2).
    by exists value1, index1, value2, results2.
  - intros (value1 & index1 & value2 & results2 & Hin1 & Hq & Hin2 & ->).
    exists (value1, value2). split; [done |]. apply Hmem.
    by exists index1, results2.
Qed.

Lemma combine_members_witness :
  ∃ results,
    combine digit digit (λ a b, 10 * a + b) ["4"; "2"]%string 0 = Ok results ∧
    ∀ value3 index2,
      (value3, index2) ∈ results ↔
      ∃ value1 index1 value2 results2,
        (value1, index1) ∈ ({[ (4, 1) ]} : gset (Z * Z)) ∧
        digit ["4"; "2"]%string index1 = Ok results2 ∧
        (value2, index2) ∈ results2 ∧
        value3 = 10 * value1 + value2.
Proof.
  apply (combine_members digit digit (λ a b, 10 * a + b)
           ["4"; "2"]%string 0 {[ (4, 1) ]}).
  - vm_compute. reflexivity.
  - intros value1 index1 Hin. apply elem_of_singleton in Hin.
    injection Hin as -> ->. eexists. vm_compute. reflexivity.
Defined.

(** X26: [compose] adds no ambiguity of its own: when [parser1] returns at
    most one result and [parser2], run where that result ends, returns at
    most one result, so does [compose parser1 parser2]. *)
Theorem compose_unambiguous {TokenT ValueT1 ValueT2}
    `{Countable ValueT1, Countable ValueT2}
    (parser1 : Parser TokenT ValueT1) (parser2 : Parser TokenT ValueT2)
    tokens index results1 results
    (Hparser1 : parser1 tokens index = Ok results1)
    (Hone1 : ∀ x y, x ∈ results1 → y ∈ results1 → x = y)
    (Hone2 : ∀ value1 index1 results2,
               (value1, index1) ∈ results1 →
               parser2 tokens index1 = Ok results2 →
               ∀ x y, x ∈ results2 → y ∈ results2 → x = y)
    (Hcompose : compose parser1 parser2 tokens index = Ok results) :
  ∀ x y, x ∈ results → y ∈ results → x = y.
Proof.
  apply compose_Ok in Hcompose as (r & Hr & _ & Hmem).
  rewrite Hparser1 in Hr. injection Hr as <-.
  intros [[value1 value2] index2] [[value1' value2'] index2']
    (index1 & results2 & Hin1 & Hq & Hin2)%Hmem
    (index1' & results2' & Hin1' & Hq' & Hin2')%Hmem.
  pose proof (Hone1 _ _ Hin1 Hin1') as [= <- <-].
  rewrite Hq in Hq'. injection Hq' as <-.
  by pose proof (Hone2 _ _ _ Hin1 Hq _ _ Hin2 Hin2') as [= <- <-].
Qed.

Lemma compose_unambiguous_witness :
  compose (consume isDigit) (consume isPlusSign) ["1"; "+"]%string 0
    = Ok {[ ("1"%string, "+"%string, 2) ]} ∧
  ∀ x y,
    x ∈ ({[ ("1"%string, "+"%string, 2) ]} : gset (string * string * Z)) →
    y ∈ ({[ ("1"%string, "+"%string, 2) ]} : gset (string * string * Z)) →
    x = y.
Proof.
  split; [vm_compute; reflexivity |].
  apply (compose_unambiguous (consume isDigit) (consume isPlusSign)
           ["1"; "+"]%string 0 {[ ("1"%string, 1) ]}).
  - vm_compute. reflexivity.
  - intros x y Hx Hy. apply elem_of_singleton in Hx, Hy. congruence.
  - intros value1 index1 results2 Hin Hq x y Hx Hy.
    apply elem_of_singleton in Hin. injection Hin as -> ->.
    assert (consume isPlusSign ["1"; "+"]%string 1
              = Ok {[ ("+"%string, 2) ]}) as Hrun by (vm_compute; reflexivity).
    rewrite Hrun in Hq. injection Hq as <-.
    apply elem_of_singleton in Hx, Hy. congruence.
  - vm_compute. reflexivity.
Defined.
